(** * Rainbow Snake Game: the game state machine and the score store

    A shallow embedding of the [SnakeGame] React component: the tick
    ([moveSnake]), food placement ([generateFood]), the level to speed
    formula ([calculateSpeed]), the input handlers ([handleDirectionChange],
    [handleKeyPress], [togglePause], [endGame], [resetGame]) and the
    high-score store (the load effect and [saveHighScore]).

    Conventions of the embedding.
    - Grid coordinates, scores and levels are JavaScript numbers that only
      ever hold small integers here; they are [Z].  [calculateSpeed] is
      evaluated over exact rationals; its values for the ten levels stay
      well away from the rounding boundaries ([calculateSpeed_margin]).
    - The component's [useState] cells, the [localStorage] entry under the
      key [snakeHighScores] and the sequence of sound cues handed to the
      audio elements are gathered in one record, [GameState].  A handler
      reads a snapshot ([gameStateRef.current], or the render closure) and
      issues setter calls; it is a function from the snapshot to the state
      after the batched setters have been applied.
    - [Math.random] is an explicit source of draws, indexed by the number
      of cells drawn so far.
    - [generateFood] is recursive without a structural argument; it takes
      fuel, and [None] stands for a call that has not returned within that
      many draws.
    - [JSON.parse] and [JSON.stringify] belong to the platform and are
      parameters.
    - Rendering, timers, touch geometry and audio playback are left out;
      a swipe ends in a call of [handleDirectionChange]. *)

From Stdlib Require Import ZArith List Bool String Ascii Lia.
From Stdlib Require Import QArith Qround.
From Stdlib Require Import Permutation Sorted.
Import ListNotations.

Local Open Scope Z_scope.

(** ** Data model *)

Record Cell : Type := mkCell { x : Z; y : Z }.

Inductive Direction : Type := UP | DOWN | LEFT | RIGHT.

(** The four audio cues ([eatSoundRef], [levelUpSoundRef], ...). *)
Inductive Sound : Type :=
| eatSound | levelUpSound | gameOverSound | gameStartSound.

Set Warnings "-register-all".

(** JSON documents as [JSON.parse] yields them.  Numbers are restricted to
    integers, the only scores the game itself produces. *)
Inductive JValue : Type :=
| JNull
| JBool (b : bool)
| JNum (n : Z)
| JStr (s : string)
| JArr (items : list JValue)
| JObj (fields : list (string * JValue)).

Definition gridSize : Z := 20.
Definition initialSpeed : Z := 165.

Record GameState : Type := mkState {
  snake : list Cell;
  food : Cell;
  direction : Direction;
  gameOver : bool;
  score : Z;
  highScores : list JValue;
  gameStarted : bool;
  speed : Z;
  paused : bool;
  level : Z;
  playerName : string;
  showNameInput : bool;
  showLevelUpAnimation : bool;
  soundEnabled : bool;
  (* the localStorage entry under 'snakeHighScores' *)
  storage : option string;
  (* cues played so far, latest first *)
  played : list Sound
}.

(** The initial [useState] values. *)
Definition initialState : GameState :=
  {| snake := [mkCell 10 10]; food := mkCell 5 5; direction := RIGHT;
     gameOver := false; score := 0; highScores := []; gameStarted := false;
     speed := initialSpeed; paused := false; level := 1; playerName := "";
     showNameInput := false; showLevelUpAnimation := false;
     soundEnabled := true; storage := None; played := [] |}.

(** *** Setters *)

Definition setSnake (v : list Cell) (s : GameState) : GameState :=
  mkState v (food s) (direction s) (gameOver s) (score s) (highScores s)
    (gameStarted s) (speed s) (paused s) (level s) (playerName s)
    (showNameInput s) (showLevelUpAnimation s) (soundEnabled s) (storage s)
    (played s).

Definition setFood (v : Cell) (s : GameState) : GameState :=
  mkState (snake s) v (direction s) (gameOver s) (score s) (highScores s)
    (gameStarted s) (speed s) (paused s) (level s) (playerName s)
    (showNameInput s) (showLevelUpAnimation s) (soundEnabled s) (storage s)
    (played s).

Definition setDirection (v : Direction) (s : GameState) : GameState :=
  mkState (snake s) (food s) v (gameOver s) (score s) (highScores s)
    (gameStarted s) (speed s) (paused s) (level s) (playerName s)
    (showNameInput s) (showLevelUpAnimation s) (soundEnabled s) (storage s)
    (played s).

Definition setGameOver (v : bool) (s : GameState) : GameState :=
  mkState (snake s) (food s) (direction s) v (score s) (highScores s)
    (gameStarted s) (speed s) (paused s) (level s) (playerName s)
    (showNameInput s) (showLevelUpAnimation s) (soundEnabled s) (storage s)
    (played s).

Definition setScore (v : Z) (s : GameState) : GameState :=
  mkState (snake s) (food s) (direction s) (gameOver s) v (highScores s)
    (gameStarted s) (speed s) (paused s) (level s) (playerName s)
    (showNameInput s) (showLevelUpAnimation s) (soundEnabled s) (storage s)
    (played s).

Definition setHighScores (v : list JValue) (s : GameState) : GameState :=
  mkState (snake s) (food s) (direction s) (gameOver s) (score s) v
    (gameStarted s) (speed s) (paused s) (level s) (playerName s)
    (showNameInput s) (showLevelUpAnimation s) (soundEnabled s) (storage s)
    (played s).

Definition setGameStarted (v : bool) (s : GameState) : GameState :=
  mkState (snake s) (food s) (direction s) (gameOver s) (score s)
    (highScores s) v (speed s) (paused s) (level s) (playerName s)
    (showNameInput s) (showLevelUpAnimation s) (soundEnabled s) (storage s)
    (played s).

Definition setSpeed (v : Z) (s : GameState) : GameState :=
  mkState (snake s) (food s) (direction s) (gameOver s) (score s)
    (highScores s) (gameStarted s) v (paused s) (level s) (playerName s)
    (showNameInput s) (showLevelUpAnimation s) (soundEnabled s) (storage s)
    (played s).

Definition setPaused (v : bool) (s : GameState) : GameState :=
  mkState (snake s) (food s) (direction s) (gameOver s) (score s)
    (highScores s) (gameStarted s) (speed s) v (level s) (playerName s)
    (showNameInput s) (showLevelUpAnimation s) (soundEnabled s) (storage s)
    (played s).

Definition setLevel (v : Z) (s : GameState) : GameState :=
  mkState (snake s) (food s) (direction s) (gameOver s) (score s)
    (highScores s) (gameStarted s) (speed s) (paused s) v (playerName s)
    (showNameInput s) (showLevelUpAnimation s) (soundEnabled s) (storage s)
    (played s).

Definition setPlayerName (v : string) (s : GameState) : GameState :=
  mkState (snake s) (food s) (direction s) (gameOver s) (score s)
    (highScores s) (gameStarted s) (speed s) (paused s) (level s) v
    (showNameInput s) (showLevelUpAnimation s) (soundEnabled s) (storage s)
    (played s).

Definition setShowNameInput (v : bool) (s : GameState) : GameState :=
  mkState (snake s) (food s) (direction s) (gameOver s) (score s)
    (highScores s) (gameStarted s) (speed s) (paused s) (level s)
    (playerName s) v (showLevelUpAnimation s) (soundEnabled s) (storage s)
    (played s).

Definition setShowLevelUpAnimation (v : bool) (s : GameState) : GameState :=
  mkState (snake s) (food s) (direction s) (gameOver s) (score s)
    (highScores s) (gameStarted s) (speed s) (paused s) (level s)
    (playerName s) (showNameInput s) v (soundEnabled s) (storage s)
    (played s).

Definition setSoundEnabled (v : bool) (s : GameState) : GameState :=
  mkState (snake s) (food s) (direction s) (gameOver s) (score s)
    (highScores s) (gameStarted s) (speed s) (paused s) (level s)
    (playerName s) (showNameInput s) (showLevelUpAnimation s) v (storage s)
    (played s).

(** [localStorage.setItem] / [localStorage.removeItem] on the one key. *)
Definition setStorage (v : option string) (s : GameState) : GameState :=
  mkState (snake s) (food s) (direction s) (gameOver s) (score s)
    (highScores s) (gameStarted s) (speed s) (paused s) (level s)
    (playerName s) (showNameInput s) (showLevelUpAnimation s)
    (soundEnabled s) v (played s).

Definition logSound (c : Sound) (s : GameState) : GameState :=
  mkState (snake s) (food s) (direction s) (gameOver s) (score s)
    (highScores s) (gameStarted s) (speed s) (paused s) (level s)
    (playerName s) (showNameInput s) (showLevelUpAnimation s)
    (soundEnabled s) (storage s) (c :: played s).

(** [playSound]: the cue is started only while sound is enabled. *)
Definition playSound (c : Sound) (s : GameState) : GameState :=
  if soundEnabled s then logSound c s else s.

(** ** Food placement *)

(** The [k]-th cell drawn: its coordinates are the values of two successive
    calls of [Math.floor(Math.random() * gridSize)]. *)
Definition RandomSource : Type := nat -> Cell.

Definition inGrid (c : Cell) : Prop :=
  0 <= x c < gridSize /\ 0 <= y c < gridSize.

Definition sameCell (a b : Cell) : bool :=
  (x a =? x b) && (y a =? y b).

(** [generateFood], reading the snake from the snapshot [ref]
    ([gameStateRef.current]).  Returns the cell and the next draw index. *)
Fixpoint generateFood (fuel : nat) (ref : GameState) (rnd : RandomSource)
    (k : nat) : option (Cell * nat) :=
  match fuel with
  | O => None
  | S fuel' =>
      let newFood := rnd k in
      let isOnSnake :=
        existsb (fun segment => sameCell segment newFood) (snake ref) in
      if isOnSnake
         && (Z.of_nat (List.length (snake ref)) <? gridSize * gridSize - 1)
      then generateFood fuel' ref rnd (S k)
      else Some (newFood, S k)
  end.

(** ** Level and speed *)

(** [Math.round]: nearest integer, halves towards plus infinity. *)
Definition Math_round (q : Q) : Z := Qfloor (q + (1 # 2)).

Definition calculateSpeed (lvl : Z) : Z :=
  let maxSpeedReduction := inject_Z (initialSpeed - 70) in
  let reduction := (inject_Z (lvl - 1) / inject_Z 9 * maxSpeedReduction)%Q in
  Math_round (inject_Z initialSpeed - reduction)%Q.

(** The effect that follows a change of [score] or [level]. *)
Definition updateLevel (s : GameState) : GameState :=
  let newLevel := score s / 10 + 1 in
  let clampedLevel := Z.min newLevel 10 in
  if negb (clampedLevel =? level s) then
    let s1 :=
      setSpeed (calculateSpeed clampedLevel) (setLevel clampedLevel s) in
    if (level s >? 1) || (clampedLevel >? 1)
    then setShowLevelUpAnimation true (playSound levelUpSound s1)
    else s1
  else s.

(** ** The tick *)

(** The [switch] on the direction inside [moveSnake]. *)
Definition moveHead (d : Direction) (head : Cell) : Cell :=
  match d with
  | UP => mkCell (x head) (if y head =? 0 then gridSize - 1 else y head - 1)
  | DOWN => mkCell (x head) (if y head =? gridSize - 1 then 0 else y head + 1)
  | LEFT => mkCell (if x head =? 0 then gridSize - 1 else x head - 1) (y head)
  | RIGHT => mkCell (if x head =? gridSize - 1 then 0 else x head + 1) (y head)
  end.

(** [Array.prototype.some] with the element index. *)
Fixpoint someFrom {A : Type} (p : A -> nat -> bool) (i : nat) (l : list A)
    : bool :=
  match l with
  | [] => false
  | a :: l' => p a i || someFrom p (S i) l'
  end.

Definition some {A : Type} (p : A -> nat -> bool) (l : list A) : bool :=
  someFrom p 0%nat l.

(** [Array.prototype.pop], for its effect on the array. *)
Definition pop {A : Type} (l : list A) : list A := removelast l.

(** [moveSnake].  An empty snake cannot arise (the snake starts with one
    cell and a tick never shortens it); on it the JavaScript builds a head
    without coordinates, finds no collision and no food, pushes and pops
    it, and stores the empty array again. *)
Definition moveSnake (fuel : nat) (rnd : RandomSource) (k : nat)
    (state : GameState) : option (GameState * nat) :=
  let newSnake := snake state in
  match newSnake with
  | [] => Some (state, k)
  | head0 :: _ =>
      let head := moveHead (direction state) head0 in
      let collided :=
        some (fun segment index =>
                (0 <? index)%nat && (x segment =? x head)
                && (y segment =? y head)) newSnake in
      if collided then
        Some (playSound gameOverSound
                (setShowNameInput true (setGameOver true state)), k)
      else
        let ateFood :=
          (x head =? x (food state)) && (y head =? y (food state)) in
        let updatedSnake := head :: newSnake in
        if negb ateFood then
          Some (setSnake (pop updatedSnake) state, k)
        else
          match generateFood fuel state rnd k with
          | None => None
          | Some (newFood, k') =>
              Some (setSnake updatedSnake
                      (playSound eatSound
                         (setFood newFood
                            (setScore (score state + 1) state))), k')
          end
  end.

(** The game-loop effect runs [moveSnake] only while the game is started,
    not over and not paused. *)
Definition tick (fuel : nat) (rnd : RandomSource) (k : nat)
    (state : GameState) : option (GameState * nat) :=
  if negb (gameStarted state) || gameOver state || paused state
  then Some (state, k)
  else moveSnake fuel rnd k state.

(** ** Input handlers *)

Definition Direction_eqb (a b : Direction) : bool :=
  match a, b with
  | UP, UP | DOWN, DOWN | LEFT, LEFT | RIGHT, RIGHT => true
  | _, _ => false
  end.

Definition opposite (d : Direction) : Direction :=
  match d with UP => DOWN | DOWN => UP | LEFT => RIGHT | RIGHT => LEFT end.

(** [handleDirectionChange], the handler of the on-screen arrows. *)
Definition handleDirectionChange (newDir : Direction) (state : GameState)
    : GameState :=
  let s1 :=
    if negb (gameStarted state) && negb (gameOver state)
    then playSound gameStartSound (setGameStarted true state)
    else state in
  if gameOver state || paused state then s1
  else if match newDir with
          | UP => negb (Direction_eqb (direction state) DOWN)
          | DOWN => negb (Direction_eqb (direction state) UP)
          | LEFT => negb (Direction_eqb (direction state) RIGHT)
          | RIGHT => negb (Direction_eqb (direction state) LEFT)
          end
  then setDirection newDir s1
  else s1.

Local Open Scope string_scope.

Definition isArrowKey (key : string) : bool :=
  existsb (String.eqb key) ["ArrowUp"; "ArrowDown"; "ArrowLeft"; "ArrowRight"].

(** [handleKeyPress] on [e.key].  Every test reads the snapshot [state],
    also after [setGameStarted(true)] has been issued. *)
Definition handleKeyPress (key : string) (state : GameState) : GameState :=
  let s1 :=
    if negb (gameStarted state) && negb (gameOver state) && isArrowKey key
    then playSound gameStartSound (setGameStarted true state)
    else state in
  if (key =? "p") || (key =? "P") then
    if gameStarted state && negb (gameOver state)
    then setPaused (negb (paused s1)) s1
    else s1
  else if ((key =? "x") || (key =? "X"))
          && (gameStarted state && negb (gameOver state)
              && negb (paused state))
  then setShowNameInput true (setGameOver true s1)
  else if negb (gameStarted state) || gameOver state || paused state then s1
  else if key =? "ArrowUp" then
    if negb (Direction_eqb (direction state) DOWN)
    then setDirection UP s1 else s1
  else if key =? "ArrowDown" then
    if negb (Direction_eqb (direction state) UP)
    then setDirection DOWN s1 else s1
  else if key =? "ArrowLeft" then
    if negb (Direction_eqb (direction state) RIGHT)
    then setDirection LEFT s1 else s1
  else if key =? "ArrowRight" then
    if negb (Direction_eqb (direction state) LEFT)
    then setDirection RIGHT s1 else s1
  else s1.

(** The key that asks for a direction. *)
Definition arrowKey (d : Direction) : string :=
  match d with
  | UP => "ArrowUp" | DOWN => "ArrowDown"
  | LEFT => "ArrowLeft" | RIGHT => "ArrowRight"
  end.

Definition togglePause (state : GameState) : GameState :=
  if gameStarted state && negb (gameOver state)
  then setPaused (negb (paused state)) state
  else state.

Definition endGame (state : GameState) : GameState :=
  if gameStarted state && negb (gameOver state) && negb (paused state)
  then playSound gameOverSound
         (setShowNameInput true (setGameOver true state))
  else state.

(** [resetGame]; its [generateFood] still reads the snake of the snapshot. *)
Definition resetGame (fuel : nat) (rnd : RandomSource) (k : nat)
    (state : GameState) : option (GameState * nat) :=
  match generateFood fuel state rnd k with
  | None => None
  | Some (newFood, k') =>
      Some (setShowNameInput false
             (setPlayerName ""
               (setLevel 1
                 (setPaused false
                   (setSpeed initialSpeed
                     (setGameStarted false
                       (setScore 0
                         (setGameOver false
                           (setDirection RIGHT
                             (setFood newFood
                               (setSnake [mkCell 10 10] state)))))))))),
            k')
  end.

(** The four states of the game, read off the three flags. *)
Inductive Phase : Type := NotStarted | Running | Paused | GameOver.

Definition phase (s : GameState) : Phase :=
  if gameOver s then GameOver
  else if negb (gameStarted s) then NotStarted
  else if paused s then Paused
  else Running.

(** ** The score store *)

(** Strings hold code units below 256; among them [String.prototype.trim]
    strips TAB, LF, VT, FF, CR, SP and NBSP. *)
Definition isWhiteSpace (c : ascii) : bool :=
  existsb (Nat.eqb (nat_of_ascii c)) [9; 10; 11; 12; 13; 32; 160]%nat.

Fixpoint trimStartChars (l : list ascii) : list ascii :=
  match l with
  | [] => []
  | c :: l' => if isWhiteSpace c then trimStartChars l' else l
  end.

Definition trimChars (l : list ascii) : list ascii :=
  rev (trimStartChars (rev (trimStartChars l))).

Definition trim (s : string) : string :=
  string_of_list_ascii (trimChars (list_ascii_of_string s)).

(** [a || b] on strings: the empty string is the only falsy one. *)
Definition orElse (a b : string) : string :=
  match a with EmptyString => b | _ => a end.

(** Property lookup on a parsed document.  Only ["name"] and ["score"] are
    ever asked for, which arrays and primitives do not have. *)
Fixpoint getField (key : string) (fields : list (string * JValue))
    : option JValue :=
  match fields with
  | [] => None
  | (k, v) :: rest => if k =? key then Some v else getField key rest
  end.

Definition getProperty (key : string) (item : JValue) : option JValue :=
  match item with
  | JObj fields => getField key fields
  | _ => None
  end.

(** ['key' in item] *)
Definition hasProperty (key : string) (item : JValue) : bool :=
  match getProperty key item with Some _ => true | None => false end.

(** [typeof item === 'object'] *)
Definition typeofObject (item : JValue) : bool :=
  match item with
  | JNull | JArr _ | JObj _ => true
  | _ => false
  end.

Definition isNull (item : JValue) : bool :=
  match item with JNull => true | _ => false end.

(** [typeof item.score === 'number'] *)
Definition scoreIsNumber (item : JValue) : bool :=
  match getProperty "score" item with
  | Some (JNum _) => true
  | _ => false
  end.

(** The predicate handed to [parsed.every]. *)
Definition validEntry (item : JValue) : bool :=
  typeofObject item && negb (isNull item) && hasProperty "name" item
  && hasProperty "score" item && scoreIsNumber item.

(** [Array.isArray(parsed) && parsed.every(...)] *)
Definition validHighScores (parsed : JValue) : bool :=
  match parsed with
  | JArr items => forallb validEntry items
  | _ => false
  end.

(** [a.score] as a number; [None] is NaN.  The entries of [highScores]
    always carry a numeric score, other values are counted as NaN. *)
Definition scoreOf (a : JValue) : option Z :=
  match getProperty "score" a with
  | Some (JNum n) => Some n
  | _ => None
  end.

(** The comparator [(a, b) => b.score - a.score]; [sort] reads NaN as 0. *)
Definition byScoreDesc (a b : JValue) : Z :=
  match scoreOf b, scoreOf a with
  | Some sb, Some sa => sb - sa
  | _, _ => 0
  end.

(** [Array.prototype.sort] is stable: it is embedded as the insertion sort
    that keeps [a] in front of [b] whenever [cmp a b <= 0]. *)
Fixpoint insertSorted {A : Type} (cmp : A -> A -> Z) (a : A) (l : list A)
    : list A :=
  match l with
  | [] => [a]
  | b :: l' =>
      if (cmp a b <=? 0)%Z then a :: b :: l' else b :: insertSorted cmp a l'
  end.

Fixpoint sort {A : Type} (cmp : A -> A -> Z) (l : list A) : list A :=
  match l with
  | [] => []
  | a :: l' => insertSorted cmp a (sort cmp l')
  end.

(** [slice(0, n)] *)
Definition slice0 {A : Type} (n : nat) (l : list A) : list A := firstn n l.

(** The object literal [{ name, score }]. *)
Definition mkEntry (name : string) (sc : Z) : JValue :=
  JObj [("name", JStr name); ("score", JNum sc)].

(** What a [try] block ends with. *)
Inductive Outcome (A : Type) : Type :=
| Normal (a : A)
| Throws.
Arguments Normal {A} a.
Arguments Throws {A}.

Section ScoreStore.

(** The platform's JSON codec.  [JSON_parse] gives [None] where
    [JSON.parse] throws a [SyntaxError]. *)
Variable JSON_parse : string -> option JValue.
Variable JSON_stringify : JValue -> string.

(** The body of the [try] block of the load effect. *)
Definition loadBody (state : GameState) : Outcome GameState :=
  match storage state with
  | None => Normal (setHighScores [] state)
  | Some EmptyString => Normal (setHighScores [] state)
  | Some savedScores =>
      match JSON_parse savedScores with
      | None => Throws
      | Some parsed =>
          if validHighScores parsed then
            match parsed with
            | JArr items => Normal (setHighScores items state)
            | _ => Normal (setHighScores [] state)
            end
          else Normal (setHighScores [] (setStorage None state))
      end
  end.

(** The load effect with its [catch] clause. *)
Definition loadHighScores (state : GameState) : GameState :=
  match loadBody state with
  | Normal s' => s'
  | Throws => setHighScores [] (setStorage None state)
  end.

Definition saveHighScore (state : GameState) : GameState :=
  let name := orElse (trim (playerName state)) "Anonymous" in
  let newHighScores :=
    slice0 5 (sort byScoreDesc
                (highScores state ++ [mkEntry name (score state)])) in
  setShowNameInput false
    (setStorage (Some (JSON_stringify (JArr newHighScores)))
       (setHighScores newHighScores state)).

End ScoreStore.

(** ** Events *)

Inductive Event : Type :=
| Mount                                   (* the load effect *)
| Frame                                   (* a due game-loop frame *)
| ScoreEffect                             (* the level effect *)
| KeyDown (key : string)
| ArrowButton (d : Direction)
| PauseButton
| EndGameButton
| SoundButton
| NameChange (value : string)             (* onChange of the name input *)
| SaveScoreButton
| PlayAgainButton.

Definition isReset (e : Event) : bool :=
  match e with PlayAgainButton => true | _ => false end.

Section Dispatch.

Variable JSON_parse : string -> option JValue.
Variable JSON_stringify : JValue -> string.

(** One event, handled. *)
Definition step (fuel : nat) (rnd : RandomSource) (k : nat)
    (state : GameState) (e : Event) : option (GameState * nat) :=
  match e with
  | Mount => Some (loadHighScores JSON_parse state, k)
  | Frame => tick fuel rnd k state
  | ScoreEffect => Some (updateLevel state, k)
  | KeyDown key => Some (handleKeyPress key state, k)
  | ArrowButton d => Some (handleDirectionChange d state, k)
  | PauseButton => Some (togglePause state, k)
  | EndGameButton => Some (endGame state, k)
  | SoundButton =>
      Some (setSoundEnabled (negb (soundEnabled state)) state, k)
  | NameChange value => Some (setPlayerName value state, k)
  | SaveScoreButton => Some (saveHighScore JSON_stringify state, k)
  | PlayAgainButton => resetGame fuel rnd k state
  end.

(** A sequence of events, handled in order. *)
Fixpoint run (fuel : nat) (rnd : RandomSource) (k : nat)
    (state : GameState) (es : list Event) : option (GameState * nat) :=
  match es with
  | [] => Some (state, k)
  | e :: es' =>
      match step fuel rnd k state e with
      | None => None
      | Some (s', k') => run fuel rnd k' s' es'
      end
  end.

End Dispatch.

(** ** Notions used in the statements *)

Local Open Scope list_scope.
Local Open Scope Z_scope.

(** What the browser can deliver: the name field has [maxLength] 15. *)
Definition admissible (e : Event) : Prop :=
  match e with
  | NameChange value => (String.length value <= 15)%nat
  | _ => True
  end.

(** Descending order of the keys. *)
Definition descending {A : Type} (key : A -> Z) : list A -> Prop :=
  StronglySorted (fun a b => key b <= key a).

(** The entries of one key, in the order they have in the list. *)
Definition withKey {A : Type} (key : A -> Z) (n : Z) (l : list A) : list A :=
  filter (fun a => key a =? n) l.

(** Membership in the snake, as the [some] calls decide it. *)
Definition onSnake (c : Cell) (l : list Cell) : bool :=
  existsb (fun segment => sameCell segment c) l.

Definition dx (d : Direction) : Z :=
  match d with LEFT => -1 | RIGHT => 1 | _ => 0 end.

Definition dy (d : Direction) : Z :=
  match d with UP => -1 | DOWN => 1 | _ => 0 end.

(** The toroidal step as the specification words it. *)
Definition wrapStep (d : Direction) (c : Cell) : Cell :=
  mkCell ((x c + dx d) mod gridSize) ((y c + dy d) mod gridSize).

(** The condition under which [generateFood] calls itself again. *)
Definition retried (ref : GameState) (c : Cell) : bool :=
  onSnake c (snake ref)
  && (Z.of_nat (List.length (snake ref)) <? gridSize * gridSize - 1).

Definition edgeState : GameState :=
  setGameStarted true (setSnake [mkCell 19 10] initialState).

(** A two-cell snake heading right, after its first food. *)
Definition twoCellState : GameState :=
  setGameStarted true
    (setScore 1 (setSnake [mkCell 5 5; mkCell 4 5] initialState)).

(** The same snake turned back onto its own tail. *)
Definition reversingState : GameState := setDirection LEFT twoCellState.

(** The opening position with the food one cell ahead of the head. *)
Definition feedingState : GameState :=
  setGameStarted true (setFood (mkCell 11 10) initialState).

(** A snake that fills the board but for the corner (0,0): it runs along
    the rows in alternating directions, head at (1,0), tail end at (0,19). *)
Definition serpentine (i : Z) : Cell :=
  let row := i / gridSize in
  let col := i mod gridSize in
  mkCell (if Z.even row then col else gridSize - 1 - col) row.

Definition fullBoardState : GameState :=
  setDirection LEFT
    (setGameStarted true
       (setSpeed 70
          (setLevel 10
             (setScore 398
                (setFood (mkCell 0 0)
                   (setSnake
                      (map (fun i => serpentine (Z.of_nat i)) (seq 1 399))
                      initialState)))))).

(** Two draws on the opening snake, then a free cell. *)
Definition twoMisses : RandomSource :=
  fun i => if (i <? 2)%nat then mkCell 10 10 else mkCell 4 4.

(** A five-cell snake curled so that its head, going down, meets the
    fourth cell. *)
Definition curledState : GameState :=
  setDirection DOWN
    (setGameStarted true
       (setScore 4
          (setSnake
             [mkCell 5 5; mkCell 6 5; mkCell 6 6; mkCell 5 6; mkCell 4 6]
             initialState))).

(** The formula as the specification gives it, over exact rationals. *)
Definition speedFormula (initial minimal lvl : Z) : Z :=
  Math_round (inject_Z initial
              - inject_Z (lvl - 1) / inject_Z 9
                * inject_Z (initial - minimal))%Q.

Definition minSpeed : Z := 70.

Definition chars (s : string) : list ascii := list_ascii_of_string s.

Definition blank (s : string) : bool := forallb isWhiteSpace (chars s).

Definition startsClean (l : list ascii) : Prop :=
  forall c, hd_error l = Some c -> isWhiteSpace c = false.

Definition scoreKey (v : JValue) : Z :=
  match scoreOf v with Some n => n | None => 0 end.

Definition isValid (v : JValue) : Prop := validEntry v = true.

(** The shape [validEntry] accepts: an object with a [name] and a numeric
    [score]. *)
Definition entryShape (item : JValue) : Prop :=
  exists fields name sc,
    item = JObj fields
    /\ getField "name" fields = Some name
    /\ getField "score" fields = Some (JNum sc).

(** The persisted text is well formed and holds [items]: it parses to an
    array whose elements all have the shape of an entry. *)
Definition persistedOk (JSON_parse : string -> option JValue)
    (stored : option string) (items : list JValue) : Prop :=
  exists text,
    stored = Some text
    /\ JSON_parse text = Some (JArr items)
    /\ Forall entryShape items.

(** What holds of every state the component reaches: the snake has a
    head, the high scores pass the validation, the typed name fits the
    name field. *)
Definition wellFormed (st : GameState) : Prop :=
  snake st <> []
  /\ Forall isValid (highScores st)
  /\ (String.length (playerName st) <= 15)%nat.

(** A stand-in parser that knows three texts. *)
Definition toyParse (text : string) : option JValue :=
  if String.eqb text "[]" then Some (JArr [])
  else if String.eqb text "best"
  then Some (JArr [mkEntry "Ann" 7; mkEntry "Bob" 3])
  else if String.eqb text "{}" then Some (JObj [])
  else None.

(** Five ranked entries and a player who scored 35. *)
Definition rankedState : GameState :=
  setPlayerName "  Zed "
    (setScore 35
       (setHighScores
          [mkEntry "A" 50; mkEntry "B" 40; mkEntry "C" 30; mkEntry "D" 20;
           mkEntry "E" 10]
          initialState)).

(** ** The game loop, touch input and rendering helpers *)

(** One animation frame of [gameLoop]: [currentTime] is [Date.now()],
    [lastMoveTime] the loop's local variable; the result carries its new
    value. *)
Definition gameLoop (fuel : nat) (rnd : RandomSource) (k : nat)
    (currentTime lastMoveTime : Z) (state : GameState)
    : option (GameState * nat * Z) :=
  if currentTime - lastMoveTime >=? speed state then
    match moveSnake fuel rnd k state with
    | None => None
    | Some (s', k') => Some (s', k', currentTime)
    end
  else Some (state, k, lastMoveTime).

(** Successive frames, at the given times, of one run of the loop.  The
    snapshot is the one the frames before have left. *)
Fixpoint frames (fuel : nat) (rnd : RandomSource) (k : nat)
    (lastMoveTime : Z) (state : GameState) (times : list Z)
    : option (GameState * nat * Z) :=
  match times with
  | [] => Some (state, k, lastMoveTime)
  | currentTime :: rest =>
      match gameLoop fuel rnd k currentTime lastMoveTime state with
      | None => None
      | Some (s', k', last') => frames fuel rnd k' last' s' rest
      end
  end.

(** The variables shared by the three touch handlers.  Screen coordinates
    are whole pixels. *)
Record TouchState : Type := mkTouch {
  touchStartX : Z;
  touchStartY : Z;
  touchEndX : Z;
  touchEndY : Z;
  touchStartTime : Z
}.

Definition initialTouch : TouchState := mkTouch 0 0 0 0 0.

(** [handleSwipe]; [now] is the value of [Date.now()] inside it.  Its
    argument [isFinal] is not read. *)
Definition handleSwipe (touch : TouchState) (now : Z) (state : GameState)
    : GameState :=
  if gameOver state || paused state then state
  else
    let diffX := touchEndX touch - touchStartX touch in
    let diffY := touchEndY touch - touchStartY touch in
    let swipeTime := now - touchStartTime touch in
    let threshold := if swipeTime <? 300 then 30 else 40 in
    if Z.abs diffX >? Z.abs diffY then
      if (diffX >? threshold)
         && negb (Direction_eqb (direction state) LEFT)
      then handleDirectionChange RIGHT state
      else if (diffX <? - threshold)
              && negb (Direction_eqb (direction state) RIGHT)
      then handleDirectionChange LEFT state
      else state
    else
      if (diffY >? threshold)
         && negb (Direction_eqb (direction state) UP)
      then handleDirectionChange DOWN state
      else if (diffY <? - threshold)
              && negb (Direction_eqb (direction state) DOWN)
      then handleDirectionChange UP state
      else state.

Definition handleTouchStart (screenX screenY now : Z) (touch : TouchState)
    : TouchState :=
  mkTouch screenX screenY (touchEndX touch) (touchEndY touch) now.

Definition handleTouchMove (screenX screenY now : Z)
    (touch : TouchState) (state : GameState) : TouchState * GameState :=
  let touch' :=
    mkTouch (touchStartX touch) (touchStartY touch) screenX screenY
      (touchStartTime touch) in
  let diffX := touchEndX touch' - touchStartX touch' in
  let diffY := touchEndY touch' - touchStartY touch' in
  if (Z.abs diffX >? 30) || (Z.abs diffY >? 30)
  then (touch', handleSwipe touch' now state)
  else (touch', state).

Definition handleTouchEnd (screenX screenY now : Z)
    (touch : TouchState) (state : GameState) : TouchState * GameState :=
  let touch' :=
    mkTouch (touchStartX touch) (touchStartY touch) screenX screenY
      (touchStartTime touch) in
  (touch', handleSwipe touch' now state).

Definition rainbowColors : list string :=
  ["#FF0000"; "#FF7F00"; "#FFFF00"; "#00FF00"; "#0000FF"; "#4B0082";
   "#9400D3"]%string.

(** [rainbowColors[index % rainbowColors.length]]; [None] is [undefined]. *)
Definition getSegmentColor (index : nat) : option string :=
  nth_error rainbowColors (index mod List.length rainbowColors)%nat.

(** The overlays the component draws over the game area. *)
Inductive Overlay : Type := StartOverlay | PauseOverlay | GameOverOverlay.

Definition overlays (state : GameState) : list Overlay :=
  (if negb (gameStarted state) && negb (gameOver state)
   then [StartOverlay] else [])
  ++ (if paused state then [PauseOverlay] else [])
  ++ (if gameOver state then [GameOverOverlay] else []).

(** What the game-over overlay offers: the name field with Save Score, or
    Play Again. *)
Inductive Control : Type := SaveScoreControl | PlayAgainControl.

Definition gameOverControl (state : GameState) : option Control :=
  if gameOver state
  then Some (if showNameInput state then SaveScoreControl
             else PlayAgainControl)
  else None.

(** ** Notions used in the statements about reachable states *)

(** Neighbours on the torus. *)
Definition adjacent (a b : Cell) : Prop := exists d, a = moveHead d b.

(** Every cell is a neighbour of the one behind it. *)
Fixpoint chained (l : list Cell) : Prop :=
  match l with
  | [] => True
  | a :: l' =>
      match l' with
      | [] => True
      | b :: _ => adjacent a b /\ chained l'
      end
  end.

(** The three flags describe one of the four phases, and the name field is
    up only when the game is over. *)
Definition flagsOk (st : GameState) : Prop :=
  (paused st = true -> gameStarted st = true /\ gameOver st = false)
  /\ (gameOver st = true -> gameStarted st = true)
  /\ (showNameInput st = true -> gameOver st = true).

Definition gameInv (st : GameState) : Prop :=
  0 <= score st
  /\ Z.of_nat (List.length (snake st)) = score st + 1
  /\ NoDup (snake st)
  /\ chained (snake st)
  /\ Forall inGrid (snake st)
  /\ flagsOk st
  /\ 1 <= level st <= 10
  /\ level st <= score st / 10 + 1
  /\ speed st = calculateSpeed (level st).

(** Events that a paused game ignores. *)
Definition ignoredWhilePaused (e : Event) : bool :=
  match e with
  | Frame | ArrowButton _ | EndGameButton => true
  | KeyDown key => negb ((key =? "p")%string || (key =? "P")%string)
  | _ => false
  end.

(** Events whose handlers call [setSnake], [setFood] or [setScore]. *)
Definition movesTheGame (e : Event) : bool :=
  match e with Frame | PlayAgainButton => true | _ => false end.

(** Events whose handlers write the high scores or the store. *)
Definition writesTheStore (e : Event) : bool :=
  match e with Mount | SaveScoreButton => true | _ => false end.

(** A stand-in serialiser for one document. *)
Definition toyStringify (v : JValue) : string := "best".

(** Bob has scored 3; Ann holds the one high score. *)
Definition bobState : GameState :=
  setPlayerName "Bob"
    (setScore 3 (setHighScores [mkEntry "Ann" 7] initialState)).

(** * Properties *)

(** ** Basic facts about cells, sounds and phases *)

Lemma sameCell_true_iff (a b : Cell) : sameCell a b = true <-> a = b.
Proof.
  unfold sameCell. rewrite andb_true_iff, !Z.eqb_eq.
  destruct a as [ax ay], b as [bx by']; simpl. split.
  - intros [-> ->]. reflexivity.
  - intros H. injection H as -> ->. split; reflexivity.
Qed.

Lemma sameCell_refl (a : Cell) : sameCell a a = true.
Proof. apply sameCell_true_iff. reflexivity. Qed.

Lemma sameCell_sym (a b : Cell) : sameCell a b = sameCell b a.
Proof.
  unfold sameCell. rewrite (Z.eqb_sym (x a)), (Z.eqb_sym (y a)). reflexivity.
Qed.

Lemma onSnake_true_iff (c : Cell) (l : list Cell) :
  onSnake c l = true <-> In c l.
Proof.
  unfold onSnake. rewrite existsb_exists. split.
  - intros (s & Hin & Hs). apply sameCell_true_iff in Hs. subst. exact Hin.
  - intros Hin. exists c. split; [exact Hin | apply sameCell_refl].
Qed.

Lemma onSnake_false_iff (c : Cell) (l : list Cell) :
  onSnake c l = false <-> ~ In c l.
Proof.
  rewrite <- onSnake_true_iff. destruct (onSnake c l); split; intros H;
    try reflexivity; try discriminate; try (intros H'; discriminate).
  exfalso. apply H. reflexivity.
Qed.

Ltac sound_cases s :=
  unfold playSound; destruct (soundEnabled s); reflexivity.

Ltac split_ifs :=
  repeat match goal with
         | |- context [if ?b then _ else _] => destruct b
         end.

Lemma snake_playSound c s : snake (playSound c s) = snake s.
Proof. sound_cases s. Qed.
Lemma food_playSound c s : food (playSound c s) = food s.
Proof. sound_cases s. Qed.
Lemma gameOver_playSound c s : gameOver (playSound c s) = gameOver s.
Proof. sound_cases s. Qed.
Lemma gameStarted_playSound c s : gameStarted (playSound c s) = gameStarted s.
Proof. sound_cases s. Qed.
Lemma paused_playSound c s : paused (playSound c s) = paused s.
Proof. sound_cases s. Qed.
Lemma highScores_playSound c s : highScores (playSound c s) = highScores s.
Proof. sound_cases s. Qed.
Lemma playerName_playSound c s : playerName (playSound c s) = playerName s.
Proof. sound_cases s. Qed.

Lemma phase_Running (s : GameState) :
  phase s = Running <->
  gameStarted s = true /\ gameOver s = false /\ paused s = false.
Proof.
  unfold phase.
  destruct (gameOver s), (gameStarted s), (paused s); simpl;
    split; try discriminate; try tauto;
    intros (H1 & H2 & H3); discriminate.
Qed.

Lemma phase_GameOver (s : GameState) :
  phase s = GameOver <-> gameOver s = true.
Proof.
  unfold phase.
  destruct (gameOver s), (gameStarted s), (paused s); simpl;
    split; try discriminate; reflexivity.
Qed.

Lemma tick_Running fuel rnd k s :
  phase s = Running -> tick fuel rnd k s = moveSnake fuel rnd k s.
Proof.
  intros H. apply phase_Running in H. destruct H as (H1 & H2 & H3).
  unfold tick. rewrite H1, H2, H3. reflexivity.
Qed.

Lemma tick_not_Running fuel rnd k s :
  phase s <> Running -> tick fuel rnd k s = Some (s, k).
Proof.
  intros H. unfold tick.
  destruct (gameStarted s) eqn:E1, (gameOver s) eqn:E2, (paused s) eqn:E3;
    try reflexivity.
  exfalso. apply H. apply phase_Running. auto.
Qed.

(** ** The tick, case by case *)

Lemma someFrom_positive (q : Cell -> bool) (i : nat) (l : list Cell) :
  someFrom (fun segment index => (0 <? index)%nat && q segment) (S i) l
  = existsb q l.
Proof.
  revert i. induction l as [| a l IH]; intros i; simpl.
  - reflexivity.
  - rewrite IH. reflexivity.
Qed.

(** The collision test skips index 0 and so inspects the body only. *)
Lemma collided_body (head h : Cell) (t : list Cell) :
  some (fun segment index =>
          (0 <? index)%nat && (x segment =? x head) && (y segment =? y head))
       (h :: t)
  = onSnake head t.
Proof.
  unfold some, onSnake. simpl.
  rewrite <- (someFrom_positive (fun segment => sameCell segment head) 0 t).
  unfold sameCell. generalize 1%nat.
  induction t as [| a t IH]; intros n; simpl.
  - reflexivity.
  - rewrite IH, andb_assoc. reflexivity.
Qed.

(** The position-wise reading of the collision test. *)
Lemma onSnake_body_index (head h : Cell) (t : list Cell) :
  onSnake head t = true <->
  exists i, (0 < i)%nat /\ nth_error (h :: t) i = Some head.
Proof.
  rewrite onSnake_true_iff. split.
  - intros Hin. apply In_nth_error in Hin. destruct Hin as [n Hn].
    exists (S n). split; [lia | exact Hn].
  - intros (i & Hi & Hn). destruct i as [| n]; [lia |].
    simpl in Hn. eapply nth_error_In. exact Hn.
Qed.

Lemma moveSnake_cons fuel rnd k st h t :
  snake st = h :: t ->
  moveSnake fuel rnd k st =
    let head := moveHead (direction st) h in
    if onSnake head t then
      Some (playSound gameOverSound
              (setShowNameInput true (setGameOver true st)), k)
    else if negb (sameCell head (food st)) then
      Some (setSnake (head :: removelast (h :: t)) st, k)
    else
      match generateFood fuel st rnd k with
      | None => None
      | Some (newFood, k') =>
          Some (setSnake (head :: h :: t)
                  (playSound eatSound
                     (setFood newFood (setScore (score st + 1) st))), k')
      end.
Proof.
  intros Hs. unfold moveSnake. rewrite Hs. cbv zeta.
  rewrite collided_body. reflexivity.
Qed.

(** ** Wraparound *)

Lemma moveHead_wrapStep (d : Direction) (c : Cell) :
  inGrid c -> moveHead d c = wrapStep d c.
Proof.
  unfold inGrid, wrapStep, moveHead, gridSize. intros [Hx Hy].
  destruct d; simpl; f_equal;
    try (rewrite Z.add_0_r, Z.mod_small by lia; reflexivity);
    match goal with
    | |- context [ (?a =? ?b) ] =>
        destruct (Z.eqb_spec a b) as [E | E];
          [ rewrite E; reflexivity | rewrite Z.mod_small by lia; lia ]
    end.
Qed.

Lemma wrapStep_inGrid (d : Direction) (c : Cell) : inGrid (wrapStep d c).
Proof.
  unfold inGrid, wrapStep, gridSize. simpl.
  split; apply Z.mod_pos_bound; lia.
Qed.

(** ** Food placement: when a draw is retried *)

Lemma generateFood_S fuel ref rnd k :
  generateFood (S fuel) ref rnd k =
    if retried ref (rnd k) then generateFood fuel ref rnd (S k)
    else Some (rnd k, S k).
Proof. reflexivity. Qed.

(** The first draw that is not retried is returned, given fuel for it. *)
Lemma generateFood_first_accept ref rnd :
  forall n fuel k,
    (forall j, (j < n)%nat -> retried ref (rnd (k + j)%nat) = true) ->
    retried ref (rnd (k + n)%nat) = false ->
    (n < fuel)%nat ->
    generateFood fuel ref rnd k = Some (rnd (k + n)%nat, S (k + n)).
Proof.
  induction n as [| n IH]; intros fuel k Hretry Hacc Hfuel.
  - destruct fuel as [| fuel]; [lia |].
    rewrite generateFood_S. rewrite Nat.add_0_r in *. rewrite Hacc. reflexivity.
  - destruct fuel as [| fuel]; [lia |].
    rewrite generateFood_S.
    assert (H0 : retried ref (rnd k) = true).
    { specialize (Hretry 0%nat). rewrite Nat.add_0_r in Hretry.
      apply Hretry. lia. }
    rewrite H0. rewrite <- Nat.add_succ_comm.
    apply IH.
    + intros j Hj. rewrite Nat.add_succ_comm. apply Hretry. lia.
    + rewrite Nat.add_succ_comm. exact Hacc.
    + lia.
Qed.

(** Draws that are all retried exhaust any amount of fuel. *)
Lemma generateFood_all_retried ref rnd :
  forall fuel k,
    (forall j, retried ref (rnd (k + j)%nat) = true) ->
    generateFood fuel ref rnd k = None.
Proof.
  induction fuel as [| fuel IH]; intros k Hall.
  - reflexivity.
  - rewrite generateFood_S.
    assert (H0 : retried ref (rnd k) = true).
    { specialize (Hall 0%nat). rewrite Nat.add_0_r in Hall. exact Hall. }
    rewrite H0. apply IH. intros j.
    rewrite Nat.add_succ_comm. apply Hall.
Qed.

(** What a returned cell is: the first draw that was not retried. *)
Lemma generateFood_returns ref rnd :
  forall fuel k c k',
    generateFood fuel ref rnd k = Some (c, k') ->
    exists n,
      (n < fuel)%nat /\ c = rnd (k + n)%nat /\ k' = S (k + n)
      /\ retried ref c = false
      /\ forall j, (j < n)%nat -> retried ref (rnd (k + j)%nat) = true.
Proof.
  induction fuel as [| fuel IH]; intros k c k' H.
  - discriminate.
  - rewrite generateFood_S in H.
    destruct (retried ref (rnd k)) eqn:E.
    + apply IH in H. destruct H as (n & Hn & Hc & Hk & Hr & Hall).
      exists (S n). rewrite <- Nat.add_succ_comm.
      split; [lia |]. split; [exact Hc |]. split; [exact Hk |].
      split; [exact Hr |].
      intros j Hj. destruct j as [| j].
      * rewrite Nat.add_0_r. exact E.
      * rewrite <- Nat.add_succ_comm. apply Hall. lia.
    + injection H as <- <-. exists 0%nat. rewrite Nat.add_0_r.
      split; [lia |]. split; [reflexivity |]. split; [reflexivity |].
      split; [exact E |].
      intros j Hj. lia.
Qed.

(** One accepted draw somewhere ahead is enough for the call to return. *)
Lemma generateFood_terminates ref rnd :
  forall n k,
    retried ref (rnd (k + n)%nat) = false ->
    exists c k', forall fuel, (n < fuel)%nat ->
      generateFood fuel ref rnd k = Some (c, k').
Proof.
  induction n as [| n IH]; intros k Hacc.
  - rewrite Nat.add_0_r in Hacc. exists (rnd k), (S k).
    intros fuel Hf. destruct fuel as [| fuel]; [lia |].
    rewrite generateFood_S, Hacc. reflexivity.
  - destruct (retried ref (rnd k)) eqn:E.
    + rewrite <- Nat.add_succ_comm in Hacc.
      destruct (IH (S k) Hacc) as (c & k' & Hc).
      exists c, k'. intros fuel Hf. destruct fuel as [| fuel]; [lia |].
      rewrite generateFood_S, E. apply Hc. lia.
    + exists (rnd k), (S k).
      intros fuel Hf. destruct fuel as [| fuel]; [lia |].
      rewrite generateFood_S, E. reflexivity.
Qed.

Lemma retried_short_snake ref c :
  Z.of_nat (List.length (snake ref)) < gridSize * gridSize - 1 ->
  retried ref c = onSnake c (snake ref).
Proof.
  intros H. unfold retried.
  apply Z.ltb_lt in H. rewrite H. apply andb_true_r.
Qed.

Lemma retried_long_snake ref c :
  gridSize * gridSize - 1 <= Z.of_nat (List.length (snake ref)) ->
  retried ref c = false.
Proof.
  intros H. unfold retried.
  apply Z.ltb_ge in H. rewrite H. apply andb_false_r.
Qed.

(** ** Claims about the tick *)

(** C3.  On a tick of the running game whose head is on the grid, the new
    head is the head moved one cell in the current direction on the torus:
    each coordinate is taken modulo [gridSize], so gridSize-1 steps to 0 and
    0 steps back to gridSize-1, the new head is on the grid again, and it
    is the first cell of the snake the tick stores. *)
Theorem C3_new_head_wraps :
  forall fuel rnd k st h t,
    phase st = Running ->
    snake st = h :: t ->
    inGrid h ->
    let newHead := moveHead (direction st) h in
    newHead = wrapStep (direction st) h
    /\ inGrid newHead
    /\ (forall a, moveHead RIGHT (mkCell (gridSize - 1) a) = mkCell 0 a
                  /\ moveHead LEFT (mkCell 0 a) = mkCell (gridSize - 1) a
                  /\ moveHead DOWN (mkCell a (gridSize - 1)) = mkCell a 0
                  /\ moveHead UP (mkCell a 0) = mkCell a (gridSize - 1))
    /\ (forall st' k',
          tick fuel rnd k st = Some (st', k') ->
          gameOver st' = false ->
          hd_error (snake st') = Some newHead).
Proof.
  intros fuel rnd k st h t Hrun Hs Hin newHead.
  assert (Hw : newHead = wrapStep (direction st) h)
    by (apply moveHead_wrapStep; exact Hin).
  split; [exact Hw |].
  split; [rewrite Hw; apply wrapStep_inGrid |].
  split.
  - intros a. repeat split; reflexivity.
  - intros st' k' Ht Hgo.
    rewrite (tick_Running _ _ _ _ Hrun), (moveSnake_cons _ _ _ _ _ _ Hs) in Ht.
    cbv zeta in Ht. fold newHead in Ht.
    destruct (onSnake newHead t).
    + injection Ht as <- <-.
      rewrite gameOver_playSound in Hgo. discriminate.
    + destruct (negb (sameCell newHead (food st))).
      * injection Ht as <- <-. reflexivity.
      * destruct (generateFood fuel st rnd k) as [[f kf] |]; [| discriminate].
        injection Ht as <- <-. reflexivity.
Qed.

Lemma C3_new_head_wraps_witness :
  moveHead RIGHT (mkCell 19 10) = mkCell 0 10
  /\ inGrid (moveHead RIGHT (mkCell 19 10))
  /\ tick 0 (fun _ => mkCell 0 0) 0 edgeState
     = Some (setSnake [mkCell 0 10] edgeState, 0%nat).
Proof.
  destruct (C3_new_head_wraps 0 (fun _ => mkCell 0 0) 0 edgeState
              (mkCell 19 10) [] eq_refl eq_refl)
    as (H1 & H2 & _ & _).
  - unfold inGrid, gridSize. simpl. lia.
  - split; [exact H1 |]. split; [exact H2 | reflexivity].
Defined.

(** C10.  With a snake of two or more cells, a new head that lands on the
    cell of the last segment ends the game, whether or not food is eaten:
    the collision test runs over the whole body as it is before the move,
    and the snake is not updated. *)
Theorem C10_last_segment_collision :
  forall fuel rnd k st h t,
    phase st = Running ->
    snake st = h :: t ->
    (2 <= List.length (snake st))%nat ->
    moveHead (direction st) h = last (snake st) h ->
    exists st',
      tick fuel rnd k st = Some (st', k)
      /\ phase st' = GameOver
      /\ snake st' = snake st.
Proof.
  intros fuel rnd k st h t Hrun Hs Hlen Hlast.
  rewrite (tick_Running _ _ _ _ Hrun), (moveSnake_cons _ _ _ _ _ _ Hs).
  cbv zeta.
  assert (Hon : onSnake (moveHead (direction st) h) t = true).
  { apply onSnake_true_iff. rewrite Hlast, Hs.
    rewrite Hs in Hlen. destruct t as [| b t']; [simpl in Hlen; lia |].
    change (last (h :: b :: t') h) with (last (b :: t') h).
    destruct (exists_last (l := b :: t')) as (l' & z & E); [discriminate |].
    rewrite E, last_last. apply in_or_app. right. left. reflexivity. }
  rewrite Hon. eexists. split; [reflexivity |]. split.
  - apply phase_GameOver. rewrite gameOver_playSound. reflexivity.
  - rewrite snake_playSound. reflexivity.
Qed.

Lemma C10_last_segment_collision_witness :
  exists st',
    tick 0 (fun _ => mkCell 0 0) 0 reversingState = Some (st', 0%nat)
    /\ phase st' = GameOver
    /\ snake st' = snake reversingState.
Proof.
  apply (C10_last_segment_collision 0 (fun _ => mkCell 0 0) 0 reversingState
           (mkCell 5 5) [mkCell 4 5]).
  - reflexivity.
  - reflexivity.
  - simpl. lia.
  - reflexivity.
Defined.

Lemma length_removelast_cons (h : Cell) (t : list Cell) :
  List.length (removelast (h :: t)) = List.length t.
Proof.
  destruct (exists_last (l := h :: t)) as (l' & a & E); [discriminate |].
  rewrite E, removelast_last.
  apply (f_equal (@List.length Cell)) in E.
  rewrite List.length_app in E. simpl in E. lia.
Qed.

(** The three outcomes of a tick of the running game. *)
Lemma tick_cases fuel rnd k st h t :
  phase st = Running ->
  snake st = h :: t ->
  tick fuel rnd k st =
    if onSnake (moveHead (direction st) h) t then
      Some (playSound gameOverSound
              (setShowNameInput true (setGameOver true st)), k)
    else if negb (sameCell (moveHead (direction st) h) (food st)) then
      Some (setSnake (moveHead (direction st) h :: removelast (h :: t)) st, k)
    else
      match generateFood fuel st rnd k with
      | None => None
      | Some (newFood, k') =>
          Some (setSnake (moveHead (direction st) h :: h :: t)
                  (playSound eatSound
                     (setFood newFood (setScore (score st + 1) st))), k')
      end.
Proof.
  intros Hrun Hs. rewrite (tick_Running _ _ _ _ Hrun).
  apply (moveSnake_cons _ _ _ _ _ _ Hs).
Qed.

(** A tick completes once [generateFood] has an accepted draw ahead. *)
Lemma tick_completes rnd k st h t :
  phase st = Running ->
  snake st = h :: t ->
  forall n, retried st (rnd (k + n)%nat) = false ->
  exists st' k', forall fuel', (n < fuel')%nat ->
    tick fuel' rnd k st = Some (st', k').
Proof.
  intros Hrun Hs n Hacc.
  destruct (generateFood_terminates st rnd n k Hacc) as (c & k' & Hc).
  destruct (onSnake (moveHead (direction st) h) t) eqn:Eon.
  - eexists. exists k. intros fuel' _.
    rewrite (tick_cases _ _ _ _ _ _ Hrun Hs), Eon. reflexivity.
  - destruct (negb (sameCell (moveHead (direction st) h) (food st))) eqn:E.
    + eexists. exists k. intros fuel' _.
      rewrite (tick_cases _ _ _ _ _ _ Hrun Hs), Eon, E. reflexivity.
    + eexists. exists k'. intros fuel' Hf.
      rewrite (tick_cases _ _ _ _ _ _ Hrun Hs), Eon, E, (Hc fuel' Hf).
      reflexivity.
Qed.

(** The opening move of the specification: the one-cell snake at (10,10)
    heading right steps to (11,10) and does not grow. *)
Example tick_opening_move :
  tick 0 (fun _ => mkCell 0 0) 0 (setGameStarted true initialState)
  = Some (setSnake [mkCell 11 10] (setGameStarted true initialState), 0%nat).
Proof. reflexivity. Qed.

(** C4.  A tick of the running game ends the game exactly when the new
    head lies on the body; a tick that does not end the game leaves the
    snake's length as it was when the new head is not the food cell and
    makes it one longer when it is.  Such ticks do occur and complete:
    when the new head is off the body and off the food the tick returns
    at once, with the game still on and the length unchanged; when it is
    off the body and on the food the tick returns as soon as some draw
    ahead is accepted by [generateFood], with the game still on and the
    snake one cell longer. *)
Theorem C4_length_per_tick :
  forall fuel rnd k st h t,
    phase st = Running ->
    snake st = h :: t ->
    let newHead := moveHead (direction st) h in
    (forall st' k',
        tick fuel rnd k st = Some (st', k') ->
        (gameOver st' = false <-> ~ In newHead t)
        /\ (gameOver st' = false ->
            (newHead <> food st ->
             List.length (snake st') = List.length (snake st))
            /\ (newHead = food st ->
                List.length (snake st') = S (List.length (snake st)))))
    /\ (~ In newHead t -> newHead <> food st ->
        exists st',
          tick fuel rnd k st = Some (st', k)
          /\ gameOver st' = false
          /\ List.length (snake st') = List.length (snake st))
    /\ (~ In newHead t -> newHead = food st ->
        forall n, retried st (rnd (k + n)%nat) = false ->
        exists st' k',
          (forall fuel', (n < fuel')%nat ->
             tick fuel' rnd k st = Some (st', k'))
          /\ gameOver st' = false
          /\ List.length (snake st') = S (List.length (snake st)))
    /\ (newHead <> food st ->
        exists st', tick fuel rnd k st = Some (st', k))
    /\ (newHead = food st ->
        forall n, retried st (rnd (k + n)%nat) = false ->
        exists st' k', forall fuel', (n < fuel')%nat ->
          tick fuel' rnd k st = Some (st', k')).
Proof.
  intros fuel rnd k st h t Hrun Hs newHead.
  pose proof (fun f => tick_cases f rnd k st h t Hrun Hs) as Htick.
  fold newHead in Htick.
  pose proof Hrun as Hflags. apply phase_Running in Hflags.
  destruct Hflags as (_ & Hov & _).
  assert (Hlen : List.length (newHead :: removelast (h :: t))
                 = List.length (h :: t)).
  { change (S (List.length (removelast (h :: t))) = S (List.length t)).
    rewrite length_removelast_cons. reflexivity. }
  split; [| split; [| split; [| split]]].
  - intros st' k' Ht. rewrite Htick in Ht.
    destruct (onSnake newHead t) eqn:Hon.
    { injection Ht as <- <-. rewrite gameOver_playSound.
      apply onSnake_true_iff in Hon. split.
      - split; [discriminate | intros Hfree; contradiction].
      - discriminate. }
    apply onSnake_false_iff in Hon.
    destruct (sameCell newHead (food st)) eqn:E; cbn [negb] in Ht.
    + apply sameCell_true_iff in E.
      destruct (generateFood fuel st rnd k) as [[f kf] |]; [| discriminate].
      injection Ht as <- <-. split.
      * split; [intros _; exact Hon |].
        intros _. cbn [gameOver setSnake]. rewrite gameOver_playSound.
        exact Hov.
      * intros _. split; [intros Hne; contradiction |].
        intros _. rewrite Hs. reflexivity.
    + assert (Hst : st' = setSnake (newHead :: removelast (h :: t)) st)
        by (injection Ht as <- <-; reflexivity).
      subst st'. split.
      * split; [intros _; exact Hon | intros _; exact Hov].
      * intros _. split.
        -- intros _. rewrite Hs. exact Hlen.
        -- intros Heq. apply sameCell_true_iff in Heq. congruence.
  - intros Hfree Hne.
    apply onSnake_false_iff in Hfree.
    assert (E : sameCell newHead (food st) = false).
    { destruct (sameCell newHead (food st)) eqn:E; [| reflexivity].
      apply sameCell_true_iff in E. contradiction. }
    exists (setSnake (newHead :: removelast (h :: t)) st).
    split; [rewrite Htick, Hfree, E; reflexivity |].
    split; [exact Hov |]. rewrite Hs. exact Hlen.
  - intros Hfree Heq n Hacc.
    apply onSnake_false_iff in Hfree. apply sameCell_true_iff in Heq.
    destruct (generateFood_terminates st rnd n k Hacc) as (c & k' & Hc).
    exists (setSnake (newHead :: h :: t)
              (playSound eatSound
                 (setFood c (setScore (score st + 1) st)))), k'.
    split.
    + intros fuel' Hf. rewrite Htick, Hfree, Heq. cbn [negb].
      rewrite (Hc fuel' Hf). reflexivity.
    + split.
      * cbn [gameOver setSnake]. rewrite gameOver_playSound. exact Hov.
      * rewrite Hs. reflexivity.
  - intros Hne. rewrite Htick.
    destruct (onSnake newHead t); [eexists; reflexivity |].
    destruct (sameCell newHead (food st)) eqn:E; simpl.
    + apply sameCell_true_iff in E. contradiction.
    + eexists; reflexivity.
  - intros _ n Hacc. exact (tick_completes rnd k st h t Hrun Hs n Hacc).
Qed.

Lemma C4_length_per_tick_witness :
  (exists st' k',
      (forall fuel', (0 < fuel')%nat ->
         tick fuel' (fun _ => mkCell 3 3) 0 feedingState = Some (st', k'))
      /\ gameOver st' = false
      /\ List.length (snake st') = 2%nat)
  /\ (exists st',
        tick 0 (fun _ => mkCell 3 3) 0 edgeState = Some (st', 0%nat)
        /\ gameOver st' = false
        /\ List.length (snake st') = 1%nat)
  /\ (forall st' k',
        tick 0 (fun _ => mkCell 3 3) 0 curledState = Some (st', k') ->
        gameOver st' = true).
Proof.
  destruct (C4_length_per_tick 1 (fun _ => mkCell 3 3) 0 feedingState
              (mkCell 10 10) [] eq_refl eq_refl) as (_ & _ & H3 & _).
  destruct (C4_length_per_tick 0 (fun _ => mkCell 3 3) 0 edgeState
              (mkCell 19 10) [] eq_refl eq_refl) as (_ & H2 & _).
  destruct (C4_length_per_tick 0 (fun _ => mkCell 3 3) 0 curledState
              (mkCell 5 5) [mkCell 6 5; mkCell 6 6; mkCell 5 6; mkCell 4 6]
              eq_refl eq_refl) as (H1 & _).
  split; [| split].
  - apply (H3 (fun H => H) eq_refl 0%nat). reflexivity.
  - apply H2; [intros [] | discriminate].
  - intros st' k' Ht. destruct (H1 st' k' Ht) as [[Hiff _] _].
    destruct (gameOver st') eqn:E; [reflexivity |].
    exfalso. apply (Hiff eq_refl). simpl. auto.
Defined.

(** Two key presses between two frames turn the snake round: each press is
    tested against the direction the press before it has set, and the
    frame that follows runs the head into the last segment. *)
Example quick_turn_reverses :
  handleKeyPress "ArrowLeft" (handleKeyPress "ArrowUp" twoCellState)
  = reversingState
  /\ exists st',
       run toyParse (fun _ => EmptyString) 0 (fun _ => mkCell 0 0) 0
         twoCellState [KeyDown "ArrowUp"; KeyDown "ArrowLeft"; Frame]
       = Some (st', 0%nat)
       /\ phase st' = GameOver.
Proof.
  split; [reflexivity |]. eexists. split; reflexivity.
Qed.

(** ** C1: where the new food may land *)

(** After the last free cell is eaten the draw (3,3) is kept although the
    snake lies on it: with 399 cells before the move nothing is retried. *)
Lemma C1_full_board_counterexample :
  phase fullBoardState = Running
  /\ moveHead (direction fullBoardState) (mkCell 1 0) = food fullBoardState
  /\ hd_error (snake fullBoardState) = Some (mkCell 1 0)
  /\ exists st',
       tick 1 (fun _ => mkCell 3 3) 0 fullBoardState = Some (st', 1%nat)
       /\ gameOver st' = false
       /\ food st' = mkCell 3 3
       /\ onSnake (food st') (snake st') = true.
Proof.
  split; [reflexivity |]. split; [reflexivity |]. split; [reflexivity |].
  eexists. split; [vm_compute; reflexivity |].
  split; [reflexivity |]. split; [reflexivity |]. vm_compute. reflexivity.
Qed.

(** The stale snapshot: [generateFood] tests the snake as it was before the
    move, so the draw that repeats the eaten food's cell is accepted and
    the new food lies under the new head. *)
Lemma generateFood_may_pick_new_head :
  exists st',
    tick 1 (fun _ => mkCell 11 10) 0 feedingState = Some (st', 1%nat)
    /\ gameOver st' = false
    /\ snake st' = [mkCell 11 10; mkCell 10 10]
    /\ food st' = mkCell 11 10.
Proof.
  eexists. split; [vm_compute; reflexivity |].
  split; [reflexivity |]. split; reflexivity.
Qed.

(** C1, amended.  On a tick of the running game that eats the food while
    the snake has fewer than gridSize * gridSize - 1 cells, the food chosen
    by [generateFood] differs from every cell the snake held before the
    move, that is from every cell of the resulting snake behind its new
    head; and the tick completes as soon as some draw ahead is off that
    snake. *)
Theorem C1_new_food_off_the_body :
  forall fuel rnd k st h t,
    phase st = Running ->
    snake st = h :: t ->
    moveHead (direction st) h = food st ->
    Z.of_nat (List.length (snake st)) < gridSize * gridSize - 1 ->
    (forall st' k',
        tick fuel rnd k st = Some (st', k') ->
        gameOver st' = false ->
        snake st' = food st :: snake st
        /\ forall c, In c (tl (snake st')) -> food st' <> c)
    /\ (forall n, ~ In (rnd (k + n)%nat) (snake st) ->
        exists st' k', forall fuel', (n < fuel')%nat ->
          tick fuel' rnd k st = Some (st', k')).
Proof.
  intros fuel rnd k st h t Hrun Hs Hfood Hlen. split.
  - intros st' k' Ht Hgo.
    rewrite (tick_Running _ _ _ _ Hrun), (moveSnake_cons _ _ _ _ _ _ Hs) in Ht.
    cbv zeta in Ht. rewrite Hfood in Ht.
    destruct (onSnake (food st) t).
    { injection Ht as <- <-. rewrite gameOver_playSound in Hgo. discriminate. }
    rewrite sameCell_refl in Ht. simpl in Ht.
    destruct (generateFood fuel st rnd k) as [[f kf] |] eqn:G; [| discriminate].
    injection Ht as <- <-.
    apply generateFood_returns in G.
    destruct G as (n & _ & _ & _ & Hr & _).
    rewrite (retried_short_snake _ _ Hlen) in Hr.
    apply onSnake_false_iff in Hr.
    split; [rewrite Hs; reflexivity |].
    intros c Hc Heq.
    change (In c (h :: t)) in Hc.
    change (food (playSound eatSound
                    (setFood f (setScore (score st + 1) st))) = c) in Heq.
    rewrite food_playSound in Heq. simpl in Heq. subst c.
    rewrite Hs in Hr. exact (Hr Hc).
  - intros n Hfree.
    apply (tick_completes rnd k st h t Hrun Hs n).
    rewrite (retried_short_snake _ _ Hlen).
    apply onSnake_false_iff. exact Hfree.
Qed.

Lemma C1_new_food_off_the_body_witness :
  (forall st' k',
      tick 1 (fun _ => mkCell 3 3) 0 feedingState = Some (st', k') ->
      gameOver st' = false ->
      snake st' = food feedingState :: snake feedingState
      /\ forall c, In c (tl (snake st')) -> food st' <> c)
  /\ exists st' k', forall fuel', (0 < fuel')%nat ->
       tick fuel' (fun _ => mkCell 3 3) 0 feedingState = Some (st', k').
Proof.
  destruct (C1_new_food_off_the_body 1 (fun _ => mkCell 3 3) 0 feedingState
              (mkCell 10 10) [] eq_refl eq_refl eq_refl) as [H1 H2].
  - vm_compute. reflexivity.
  - split; [exact H1 |]. apply (H2 0%nat).
    simpl. intros [H | []]. discriminate.
Defined.

(** ** C6: termination of food placement *)

(** Draws that all repeat the one cell of the opening snake are retried
    for ever: no amount of fuel makes the call return. *)
Lemma C6_endless_retry_counterexample :
  ~ exists fuel c k',
      generateFood fuel initialState (fun _ => mkCell 10 10) 0 = Some (c, k').
Proof.
  intros (fuel & c & k' & H).
  rewrite generateFood_all_retried in H; [discriminate |].
  intros j. reflexivity.
Qed.

(** C6, amended.  [generateFood] retries exactly while the drawn cell lies
    on the snake and the snake has fewer than gridSize * gridSize - 1
    cells.  With a snake of at least that length it returns its first
    draw; with a shorter snake it returns the first draw that is off the
    snake, after as many retries as there are draws before it; it returns
    nothing when every draw lies on the shorter snake.  Whatever it returns
    is off the snake unless the snake has reached that length. *)
Theorem C6_generateFood_termination :
  forall ref rnd k,
    (gridSize * gridSize - 1 <= Z.of_nat (List.length (snake ref)) ->
     forall fuel, (0 < fuel)%nat ->
       generateFood fuel ref rnd k = Some (rnd k, S k))
    /\ (Z.of_nat (List.length (snake ref)) < gridSize * gridSize - 1 ->
        forall n,
          (forall j, (j < n)%nat -> In (rnd (k + j)%nat) (snake ref)) ->
          ~ In (rnd (k + n)%nat) (snake ref) ->
          forall fuel, (n < fuel)%nat ->
            generateFood fuel ref rnd k = Some (rnd (k + n)%nat, S (k + n)))
    /\ (Z.of_nat (List.length (snake ref)) < gridSize * gridSize - 1 ->
        (forall j, In (rnd (k + j)%nat) (snake ref)) ->
        forall fuel, generateFood fuel ref rnd k = None)
    /\ (forall fuel c k',
          generateFood fuel ref rnd k = Some (c, k') ->
          ~ In c (snake ref)
          \/ gridSize * gridSize - 1 <= Z.of_nat (List.length (snake ref))).
Proof.
  intros ref rnd k. split; [| split; [| split]].
  - intros Hlong fuel Hf.
    pose proof (generateFood_first_accept ref rnd 0 fuel k) as H.
    rewrite Nat.add_0_r in H. apply H.
    + intros j Hj. lia.
    + apply retried_long_snake. exact Hlong.
    + exact Hf.
  - intros Hshort n Hretry Hfree fuel Hf.
    apply generateFood_first_accept.
    + intros j Hj. rewrite (retried_short_snake _ _ Hshort).
      apply onSnake_true_iff. apply Hretry. exact Hj.
    + rewrite (retried_short_snake _ _ Hshort).
      apply onSnake_false_iff. exact Hfree.
    + exact Hf.
  - intros Hshort Hall fuel. apply generateFood_all_retried.
    intros j. rewrite (retried_short_snake _ _ Hshort).
    apply onSnake_true_iff. apply Hall.
  - intros fuel c k' H.
    apply generateFood_returns in H. destruct H as (n & _ & _ & _ & Hr & _).
    unfold retried in Hr. apply andb_false_iff in Hr. destruct Hr as [Hr | Hr].
    + left. apply onSnake_false_iff. exact Hr.
    + right. apply Z.ltb_ge. exact Hr.
Qed.

Lemma C6_generateFood_termination_witness :
  generateFood 3 initialState twoMisses 0 = Some (mkCell 4 4, 3%nat).
Proof.
  destruct (C6_generateFood_termination initialState twoMisses 0)
    as (_ & H & _).
  apply (H ltac:(vm_compute; reflexivity) 2%nat).
  - intros j Hj. destruct j as [| [| j]]; [left; reflexivity .. | lia].
  - simpl. intros [E | []]. discriminate.
  - lia.
Defined.

(** ** C2: a self-collision ends the game and freezes the snake *)

Section Frozen.

Variable JSON_parse : string -> option JValue.
Variable JSON_stringify : JValue -> string.

Ltac frozen_leaf H :=
  solve [ eexists; split; [reflexivity |];
          split; [apply phase_GameOver |];
          repeat (simpl; rewrite ?gameOver_playSound, ?snake_playSound);
          simpl; auto ].

(** Once the game is over no event but the reset touches the snake or
    leaves the game-over state. *)
Lemma step_frozen fuel rnd k st e :
  phase st = GameOver ->
  isReset e = false ->
  exists st',
    step JSON_parse JSON_stringify fuel rnd k st e = Some (st', k)
    /\ phase st' = GameOver
    /\ snake st' = snake st.
Proof.
  intros Hover Hreset. pose proof Hover as Hgo.
  apply phase_GameOver in Hgo.
  destruct e; try discriminate; unfold step.
  - unfold loadHighScores, loadBody.
    destruct (storage st) as [[| c s] |]; try frozen_leaf Hgo.
    destruct (JSON_parse (String c s)) as [parsed |]; try frozen_leaf Hgo.
    destruct (validHighScores parsed); try frozen_leaf Hgo.
    destruct parsed; frozen_leaf Hgo.
  - rewrite tick_not_Running by (rewrite Hover; discriminate).
    frozen_leaf Hgo.
  - unfold updateLevel.
    destruct (negb (Z.min (score st / 10 + 1) 10 =? level st));
      [| frozen_leaf Hgo].
    destruct ((level st >? 1) || (Z.min (score st / 10 + 1) 10 >? 1));
      frozen_leaf Hgo.
  - unfold handleKeyPress. split_ifs. all: frozen_leaf Hgo.
  - unfold handleDirectionChange. split_ifs. all: frozen_leaf Hgo.
  - unfold togglePause. split_ifs. all: frozen_leaf Hgo.
  - unfold endGame. split_ifs. all: frozen_leaf Hgo.
  - frozen_leaf Hgo.
  - frozen_leaf Hgo.
  - unfold saveHighScore. frozen_leaf Hgo.
Qed.

Lemma run_frozen fuel rnd es :
  forall k st,
    phase st = GameOver ->
    existsb isReset es = false ->
    exists st',
      run JSON_parse JSON_stringify fuel rnd k st es = Some (st', k)
      /\ phase st' = GameOver
      /\ snake st' = snake st.
Proof.
  induction es as [| e es IH]; intros k st Hover Hreset.
  - exists st. repeat split; auto.
  - simpl in Hreset. apply orb_false_iff in Hreset.
    destruct Hreset as [He Hes].
    destruct (step_frozen fuel rnd k st e Hover He) as (s1 & Hs1 & Ho1 & Hsn1).
    destruct (IH k s1 Ho1 Hes) as (s2 & Hs2 & Ho2 & Hsn2).
    exists s2. simpl. rewrite Hs1. split; [exact Hs2 |].
    split; [exact Ho2 | congruence].
Qed.

End Frozen.

(** C2.  On a tick of the running game whose new head lies on a body cell
    at an index above 0, the game goes to GameOver and the snake is stored
    unchanged; from then on every sequence of events without a reset
    (frames, keys, buttons, name edits, saving the score, the effects)
    runs to its end and leaves the snake and the GameOver state as they
    are. *)
Theorem C2_self_collision_freezes :
  forall (JSON_parse : string -> option JValue)
         (JSON_stringify : JValue -> string)
         fuel rnd k st h t i,
    phase st = Running ->
    snake st = h :: t ->
    (0 < i)%nat ->
    nth_error (snake st) i = Some (moveHead (direction st) h) ->
    exists st',
      tick fuel rnd k st = Some (st', k)
      /\ phase st' = GameOver
      /\ snake st' = snake st
      /\ forall es fuel' rnd' k',
           existsb isReset es = false ->
           exists st'',
             run JSON_parse JSON_stringify fuel' rnd' k' st' es
             = Some (st'', k')
             /\ phase st'' = GameOver
             /\ snake st'' = snake st.
Proof.
  intros JSON_parse JSON_stringify fuel rnd k st h t i Hrun Hs Hi Hnth.
  assert (Hon : onSnake (moveHead (direction st) h) t = true).
  { apply (onSnake_body_index _ h). exists i. rewrite <- Hs. auto. }
  rewrite (tick_cases _ _ _ _ _ _ Hrun Hs), Hon.
  eexists. split; [reflexivity |].
  assert (Hover : phase (playSound gameOverSound
                          (setShowNameInput true (setGameOver true st)))
                  = GameOver).
  { apply phase_GameOver. rewrite gameOver_playSound. reflexivity. }
  assert (Hsn : snake (playSound gameOverSound
                         (setShowNameInput true (setGameOver true st)))
                = snake st).
  { rewrite snake_playSound. reflexivity. }
  split; [exact Hover |]. split; [exact Hsn |].
  intros es fuel' rnd' k' Hes.
  destruct (run_frozen JSON_parse JSON_stringify fuel' rnd' es k' _ Hover Hes)
    as (s2 & H1 & H2 & H3).
  exists s2. split; [exact H1 |]. split; [exact H2 | congruence].
Qed.

Lemma C2_self_collision_freezes_witness :
  exists st',
    tick 0 (fun _ => mkCell 0 0) 0 curledState = Some (st', 0%nat)
    /\ phase st' = GameOver
    /\ snake st' = snake curledState
    /\ forall es fuel' rnd' k',
         existsb isReset es = false ->
         exists st'',
           run (fun _ => None) (fun _ => EmptyString) fuel' rnd' k' st' es
           = Some (st'', k')
           /\ phase st'' = GameOver
           /\ snake st'' = snake curledState.
Proof.
  apply (C2_self_collision_freezes (fun _ => None) (fun _ => EmptyString)
           0 (fun _ => mkCell 0 0) 0 curledState (mkCell 5 5)
           [mkCell 6 5; mkCell 6 6; mkCell 5 6; mkCell 4 6] 3).
  - reflexivity.
  - reflexivity.
  - lia.
  - reflexivity.
Defined.

(** ** C5: direction requests *)

Lemma phase_flags (s : GameState) :
  match phase s with
  | GameOver => gameOver s = true
  | NotStarted => gameOver s = false /\ gameStarted s = false
  | Paused => gameOver s = false /\ gameStarted s = true /\ paused s = true
  | Running => gameOver s = false /\ gameStarted s = true /\ paused s = false
  end.
Proof.
  unfold phase.
  destruct (gameOver s), (gameStarted s), (paused s); simpl; auto.
Qed.

(** Before the game has started a request is not ignored: it starts the
    game, and the on-screen arrow also turns the snake. *)
Lemma C5_not_started_counterexample :
  phase initialState = NotStarted
  /\ handleDirectionChange UP initialState <> initialState
  /\ handleKeyPress (arrowKey UP) initialState <> initialState
  /\ gameStarted (handleKeyPress (arrowKey UP) initialState) = true
  /\ gameStarted (handleDirectionChange UP initialState) = true
  /\ direction (handleDirectionChange UP initialState) = UP.
Proof.
  split; [reflexivity |].
  split; [intros H; apply (f_equal gameStarted) in H; discriminate |].
  split; [intros H; apply (f_equal gameStarted) in H; discriminate |].
  repeat split.
Qed.

(** C5, amended.  A direction request [d], from the on-screen arrows or
    from the arrow keys, leaves the whole state as it is when the game is
    paused or over, and when the game is running and [d] is the opposite
    of the current direction; when the game is running and [d] is not the
    opposite, it sets the direction read by the next tick to [d] and
    changes nothing else.  Before the game has started the request starts
    it (with the start sound): the arrow key leaves the direction alone,
    the on-screen arrow also sets it to [d] unless [d] is the opposite. *)
Theorem C5_direction_request :
  forall d st,
    ((phase st = Paused \/ phase st = GameOver) ->
     handleDirectionChange d st = st
     /\ handleKeyPress (arrowKey d) st = st)
    /\ (phase st = Running -> d = opposite (direction st) ->
        handleDirectionChange d st = st
        /\ handleKeyPress (arrowKey d) st = st)
    /\ (phase st = Running -> d <> opposite (direction st) ->
        handleDirectionChange d st = setDirection d st
        /\ handleKeyPress (arrowKey d) st = setDirection d st
        /\ direction (setDirection d st) = d)
    /\ (phase st = NotStarted ->
        let started := playSound gameStartSound (setGameStarted true st) in
        handleKeyPress (arrowKey d) st = started
        /\ handleDirectionChange d st =
             if paused st then started
             else if Direction_eqb d (opposite (direction st)) then started
             else setDirection d started).
Proof.
  intros d st. pose proof (phase_flags st) as Hf.
  split; [| split; [| split]].
  - intros [Hp | Hp]; rewrite Hp in Hf.
    + destruct Hf as (H1 & H2 & H3).
      unfold handleDirectionChange, handleKeyPress. rewrite H1, H2, H3.
      destruct d; split; reflexivity.
    + unfold handleDirectionChange, handleKeyPress. rewrite Hf.
      destruct d, (gameStarted st); split; reflexivity.
  - intros Hp Hd. rewrite Hp in Hf. destruct Hf as (H1 & H2 & H3).
    unfold handleDirectionChange, handleKeyPress. rewrite H1, H2, H3, Hd.
    destruct (direction st); split; reflexivity.
  - intros Hp Hd. rewrite Hp in Hf. destruct Hf as (H1 & H2 & H3).
    unfold handleDirectionChange, handleKeyPress. rewrite H1, H2, H3.
    destruct d, (direction st);
      try (exfalso; apply Hd; reflexivity);
      repeat split; reflexivity.
  - intros Hp started. rewrite Hp in Hf. destruct Hf as (H1 & H2).
    unfold handleDirectionChange, handleKeyPress. rewrite H1, H2.
    fold started. split.
    + destruct d; reflexivity.
    + destruct (paused st); [reflexivity |].
      destruct d, (direction st); reflexivity.
Qed.

Lemma C5_direction_request_witness :
  handleDirectionChange UP edgeState = setDirection UP edgeState
  /\ handleKeyPress (arrowKey UP) edgeState = setDirection UP edgeState
  /\ handleDirectionChange LEFT edgeState = edgeState
  /\ handleKeyPress (arrowKey LEFT) edgeState = edgeState
  /\ handleDirectionChange UP (setPaused true edgeState)
     = setPaused true edgeState.
Proof.
  destruct (C5_direction_request UP edgeState) as (_ & _ & H3 & _).
  destruct (C5_direction_request LEFT edgeState) as (_ & H2 & _ & _).
  destruct (C5_direction_request UP (setPaused true edgeState))
    as (H1 & _ & _ & _).
  destruct (H3 eq_refl ltac:(discriminate)) as (Ha & Hb & _).
  destruct (H2 eq_refl eq_refl) as (Hc & Hd).
  destruct (H1 (or_introl eq_refl)) as (He & _).
  repeat split; assumption.
Defined.

(** ** C9: the speed of a level *)

(** [calculateSpeed] in integer arithmetic. *)
Lemma calculateSpeed_closed_form (lvl : Z) :
  calculateSpeed lvl = (3169 - 190 * lvl) / 18.
Proof.
  unfold calculateSpeed, Math_round, initialSpeed.
  change ((3169 - 190 * lvl) / 18) with (Qfloor ((3169 - 190 * lvl) # 18)).
  apply Qfloor_comp.
  rewrite (Qmake_Qdiv (3169 - 190 * lvl) 18).
  unfold Z.sub. rewrite !inject_Z_plus, !inject_Z_opp, !inject_Z_mult.
  set (q := inject_Z lvl).
  unfold inject_Z. field.
Qed.

Example calculateSpeed_table :
  map calculateSpeed [1; 2; 3; 4; 5; 6; 7; 8; 9; 10]
  = [165; 154; 144; 133; 123; 112; 102; 91; 81; 70].
Proof. reflexivity. Qed.

(** For the ten levels the rounded value stays at least 1/18 away from the
    next rounding boundary. *)
Lemma calculateSpeed_margin (lvl : Z) :
  1 <= lvl <= 10 -> 1 <= (3169 - 190 * lvl) mod 18 <= 17.
Proof.
  intros H.
  assert (E : lvl = 1 \/ lvl = 2 \/ lvl = 3 \/ lvl = 4 \/ lvl = 5 \/ lvl = 6
              \/ lvl = 7 \/ lvl = 8 \/ lvl = 9 \/ lvl = 10) by lia.
  repeat (destruct E as [-> | E]; [vm_compute; split; discriminate |]).
  subst. vm_compute. split; discriminate.
Qed.

(** C9.  For every level from 1 to 10, [calculateSpeed] is the rounded
    linear interpolation of the specification with initialSpeed = 165 and
    minSpeed = 70; it gives 165 at level 1 and 70 at level 10 and never
    grows with the level. *)
Theorem C9_calculateSpeed_formula :
  forall lvl,
    1 <= lvl <= 10 ->
    calculateSpeed lvl = speedFormula initialSpeed minSpeed lvl
    /\ initialSpeed = 165
    /\ calculateSpeed 1 = 165
    /\ calculateSpeed 10 = 70
    /\ minSpeed <= calculateSpeed lvl <= initialSpeed
    /\ forall lvl', lvl <= lvl' -> calculateSpeed lvl' <= calculateSpeed lvl.
Proof.
  intros lvl Hl.
  split; [reflexivity |]. split; [reflexivity |].
  split; [reflexivity |]. split; [reflexivity |].
  split.
  - rewrite calculateSpeed_closed_form. unfold minSpeed, initialSpeed.
    split.
    + apply Z.div_le_lower_bound; lia.
    + assert ((3169 - 190 * lvl) / 18 < 166)
        by (apply Z.div_lt_upper_bound; lia).
      lia.
  - intros lvl' Hle. rewrite !calculateSpeed_closed_form.
    apply Z.div_le_mono; lia.
Qed.

Lemma C9_calculateSpeed_formula_witness :
  calculateSpeed 5 = 123
  /\ calculateSpeed 6 <= calculateSpeed 5.
Proof.
  destruct (C9_calculateSpeed_formula 5 ltac:(lia))
    as (H1 & _ & _ & _ & _ & H2).
  split; [rewrite H1; reflexivity | apply H2; lia].
Defined.

(** ** The stable sort *)

Section StableSort.

Variable A : Type.
Variable cmp : A -> A -> Z.

Lemma insertSorted_perm (a : A) (l : list A) :
  Permutation (insertSorted cmp a l) (a :: l).
Proof.
  induction l as [| b l IH]; simpl.
  - apply Permutation_refl.
  - destruct (cmp a b <=? 0).
    + apply Permutation_refl.
    + apply perm_trans with (b :: a :: l).
      * apply perm_skip. exact IH.
      * apply perm_swap.
Qed.

Lemma sort_perm (l : list A) : Permutation (sort cmp l) l.
Proof.
  induction l as [| a l IH]; simpl.
  - apply perm_nil.
  - apply perm_trans with (a :: sort cmp l).
    + apply insertSorted_perm.
    + apply perm_skip. exact IH.
Qed.

Lemma sort_length (l : list A) :
  List.length (sort cmp l) = List.length l.
Proof. apply Permutation_length, sort_perm. Qed.

(** An element that may stay behind everything in front of it stays last. *)
Lemma insertSorted_app_last (a z : A) (m : list A) :
  cmp a z <= 0 ->
  insertSorted cmp a (m ++ [z]) = insertSorted cmp a m ++ [z].
Proof.
  intros Haz. induction m as [| b m IH]; simpl.
  - apply Z.leb_le in Haz. rewrite Haz. reflexivity.
  - destruct (cmp a b <=? 0); [reflexivity |].
    rewrite IH. reflexivity.
Qed.

Lemma sort_app_last (z : A) (l : list A) :
  (forall a, In a l -> cmp a z <= 0) ->
  sort cmp (l ++ [z]) = sort cmp l ++ [z].
Proof.
  induction l as [| a l IH]; intros Hl; simpl.
  - reflexivity.
  - rewrite IH by (intros b Hb; apply Hl; right; exact Hb).
    apply insertSorted_app_last. apply Hl. left. reflexivity.
Qed.

(** A last element that must go behind a newcomer, and may stay behind
    all others, ends up last. *)
Lemma sort_app_last_two (z e : A) (l : list A) :
  0 < cmp z e ->
  (forall a, In a l -> cmp a z <= 0) ->
  sort cmp (l ++ [z; e]) = sort cmp (l ++ [e]) ++ [z].
Proof.
  intros Hze. induction l as [| a l IH]; intros Hl; simpl.
  - destruct (Z.leb_spec (cmp z e) 0); [lia | reflexivity].
  - rewrite IH by (intros b Hb; apply Hl; right; exact Hb).
    apply insertSorted_app_last. apply Hl. left. reflexivity.
Qed.

(** *** Ordering and stability, for a comparator that compares keys *)

Variable key : A -> Z.
Variable ok : A -> Prop.
Hypothesis cmp_key :
  forall a b, ok a -> ok b -> cmp a b = key b - key a.

Lemma insertSorted_ok (a : A) (l : list A) :
  ok a -> Forall ok l -> Forall ok (insertSorted cmp a l).
Proof.
  intros Ha Hl.
  apply (Permutation_Forall (Permutation_sym (insertSorted_perm a l))).
  constructor; assumption.
Qed.

Lemma sort_ok (l : list A) : Forall ok l -> Forall ok (sort cmp l).
Proof.
  intros Hl.
  apply (Permutation_Forall (Permutation_sym (sort_perm l))). exact Hl.
Qed.

Lemma insertSorted_descending (a : A) (l : list A) :
  ok a -> Forall ok l -> descending key l ->
  descending key (insertSorted cmp a l).
Proof.
  intros Ha Hok Hl. induction Hl as [| b l Hl IH Hb]; simpl.
  - constructor; constructor.
  - inversion Hok as [| ? ? Hokb Hokl]; subst.
    rewrite (cmp_key a b Ha Hokb).
    destruct (Z.leb_spec (key b - key a) 0) as [Hle | Hgt].
    + constructor; [constructor; assumption |].
      constructor; [lia |].
      eapply Forall_impl; [| exact Hb]. simpl. intros c Hc. lia.
    + constructor; [apply IH; exact Hokl |].
      apply (Permutation_Forall (Permutation_sym (insertSorted_perm a l))).
      constructor; [lia | exact Hb].
Qed.

Lemma sort_descending (l : list A) :
  Forall ok l -> descending key (sort cmp l).
Proof.
  induction l as [| a l IH]; intros Hok; simpl.
  - constructor.
  - inversion Hok; subst.
    apply insertSorted_descending; auto using sort_ok.
Qed.

Lemma insertSorted_withKey (n : Z) (a : A) (l : list A) :
  ok a -> Forall ok l ->
  withKey key n (insertSorted cmp a l) = withKey key n (a :: l).
Proof.
  intros Ha Hok. induction Hok as [| b l Hb Hl IH]; simpl.
  - reflexivity.
  - rewrite (cmp_key a b Ha Hb).
    destruct (Z.leb_spec (key b - key a) 0) as [Hle | Hgt].
    + reflexivity.
    + unfold withKey in *. simpl in *. rewrite IH.
      destruct (Z.eqb_spec (key b) n), (Z.eqb_spec (key a) n);
        try reflexivity.
      lia.
Qed.

Lemma sort_withKey (n : Z) (l : list A) :
  Forall ok l -> withKey key n (sort cmp l) = withKey key n l.
Proof.
  induction l as [| a l IH]; intros Hok; simpl.
  - reflexivity.
  - inversion Hok; subst.
    rewrite insertSorted_withKey by auto using sort_ok.
    unfold withKey in *. simpl. rewrite IH by assumption. reflexivity.
Qed.

(** A list already in descending order is left as it is. *)
Lemma sort_descending_id (l : list A) :
  Forall ok l -> descending key l -> sort cmp l = l.
Proof.
  intros Hok Hl. induction Hl as [| a l Hl IH Ha]; simpl.
  - reflexivity.
  - inversion Hok as [| ? ? Hoka Hokl]; subst.
    rewrite (IH Hokl). destruct l as [| b l']; [reflexivity |].
    simpl. inversion Hokl; subst. inversion Ha; subst.
    rewrite (cmp_key a b) by assumption.
    destruct (Z.leb_spec (key b - key a) 0); [reflexivity | lia].
Qed.

End StableSort.

(** ** Trimming *)

Lemma trimStartChars_split (l : list ascii) :
  exists pre,
    l = pre ++ trimStartChars l
    /\ forallb isWhiteSpace pre = true
    /\ startsClean (trimStartChars l).
Proof.
  induction l as [| c l (pre & E & Hpre & Hclean)].
  - exists []. repeat split. intros c Hc. discriminate.
  - simpl. destruct (isWhiteSpace c) eqn:Ec.
    + exists (c :: pre). split; [simpl; rewrite <- E; reflexivity |].
      split; [simpl; rewrite Ec, Hpre; reflexivity | exact Hclean].
    + exists []. split; [reflexivity |]. split; [reflexivity |].
      intros c' Hc'. simpl in Hc'. injection Hc' as <-. exact Ec.
Qed.

Lemma trimStartChars_clean (l : list ascii) :
  startsClean l -> trimStartChars l = l.
Proof.
  destruct l as [| c l]; [reflexivity |].
  intros H. simpl. rewrite (H c eq_refl). reflexivity.
Qed.

(** [trimChars] removes a whitespace prefix and a whitespace suffix and
    leaves a string that neither starts nor ends with whitespace. *)
Lemma trimChars_split (l : list ascii) :
  exists pre post,
    l = pre ++ trimChars l ++ post
    /\ forallb isWhiteSpace pre = true
    /\ forallb isWhiteSpace post = true
    /\ startsClean (trimChars l)
    /\ startsClean (rev (trimChars l)).
Proof.
  unfold trimChars.
  destruct (trimStartChars_split l) as (pre & E1 & Hpre & Hc1).
  destruct (trimStartChars_split (rev (trimStartChars l)))
    as (post & E2 & Hpost & Hc2).
  set (m := trimStartChars l) in *.
  set (r := trimStartChars (rev m)) in *.
  assert (Em : m = rev r ++ rev post).
  { rewrite <- rev_app_distr, <- E2, rev_involutive. reflexivity. }
  exists pre, (rev post).
  split; [rewrite <- Em; exact E1 |].
  split; [exact Hpre |].
  split.
  { rewrite forallb_forall in *. intros c Hc. apply Hpost.
    apply in_rev. exact Hc. }
  split; [| rewrite rev_involutive; exact Hc2].
  intros c Hc. apply (Hc1 c). rewrite Em.
  destruct (rev r) as [| c0 r']; [discriminate |]. exact Hc.
Qed.

Lemma trimChars_length (l : list ascii) :
  (List.length (trimChars l) <= List.length l)%nat.
Proof.
  destruct (trimChars_split l) as (pre & post & E & _).
  rewrite E at 2. rewrite !List.length_app. lia.
Qed.

Lemma trimChars_blank (l : list ascii) :
  trimChars l = [] <-> forallb isWhiteSpace l = true.
Proof.
  split.
  - intros H. destruct (trimChars_split l) as (pre & post & E & Hp & Hq & _).
    rewrite H in E. rewrite E. simpl.
    rewrite forallb_app, Hp, Hq. reflexivity.
  - intros H. unfold trimChars.
    assert (E : trimStartChars l = []).
    { induction l as [| c l IH]; [reflexivity |].
      simpl in *. apply andb_true_iff in H. destruct H as [Hc Hl].
      rewrite Hc. apply IH. exact Hl. }
    rewrite E. reflexivity.
Qed.

Lemma length_string_of_list_ascii (l : list ascii) :
  String.length (string_of_list_ascii l) = List.length l.
Proof. induction l as [| c l IH]; simpl; [| rewrite IH]; reflexivity. Qed.

Lemma length_chars (s : string) : List.length (chars s) = String.length s.
Proof. induction s as [| c s IH]; simpl; [| rewrite IH]; reflexivity. Qed.

Lemma chars_trim (s : string) : chars (trim s) = trimChars (chars s).
Proof. unfold trim, chars. apply list_ascii_of_string_of_list_ascii. Qed.

Lemma trim_length (s : string) :
  (String.length (trim s) <= String.length s)%nat.
Proof.
  rewrite <- !length_chars, chars_trim. apply trimChars_length.
Qed.

Lemma trim_blank (s : string) :
  trim s = EmptyString <-> blank s = true.
Proof.
  unfold blank. rewrite <- trimChars_blank, <- chars_trim. split.
  - intros ->. reflexivity.
  - intros H. rewrite <- (string_of_list_ascii_of_string (trim s)).
    unfold chars in H. rewrite H. reflexivity.
Qed.

(** [playerName.trim() || 'Anonymous'] *)
Lemma name_or_anonymous (s : string) :
  orElse (trim s) "Anonymous"
  = if blank s then "Anonymous"%string else trim s.
Proof.
  destruct (blank s) eqn:E.
  - apply trim_blank in E. rewrite E. reflexivity.
  - destruct (trim s) eqn:T; [| reflexivity].
    assert (B : blank s = true) by (apply trim_blank; exact T).
    congruence.
Qed.

(** ** Entries *)

Lemma validEntry_shape (item : JValue) : isValid item <-> entryShape item.
Proof.
  unfold isValid, entryShape, validEntry, hasProperty, scoreIsNumber.
  split.
  - destruct item as [| b | n | s | items | fields]; simpl; try discriminate.
    destruct (getField "name" fields) as [name |] eqn:Hn; simpl;
      [| discriminate].
    destruct (getField "score" fields) as [[| | sc | | |] |] eqn:Hs; simpl;
      try discriminate.
    intros _. exists fields, name, sc. auto.
  - intros (fields & name & sc & -> & Hn & Hs). simpl.
    rewrite Hn, Hs. reflexivity.
Qed.

Lemma scoreOf_valid (v : JValue) : isValid v -> scoreOf v = Some (scoreKey v).
Proof.
  intros H. apply validEntry_shape in H.
  destruct H as (fields & name & sc & -> & _ & Hs).
  unfold scoreKey, scoreOf. simpl. rewrite Hs. reflexivity.
Qed.

Lemma byScoreDesc_key (a b : JValue) :
  isValid a -> isValid b -> byScoreDesc a b = scoreKey b - scoreKey a.
Proof.
  intros Ha Hb. unfold byScoreDesc.
  rewrite (scoreOf_valid a Ha), (scoreOf_valid b Hb). reflexivity.
Qed.

Lemma mkEntry_valid (name : string) (sc : Z) : isValid (mkEntry name sc).
Proof. reflexivity. Qed.

Lemma scoreKey_mkEntry (name : string) (sc : Z) :
  scoreKey (mkEntry name sc) = sc.
Proof. reflexivity. Qed.

Lemma descending_firstn (n : nat) (l : list JValue) :
  descending scoreKey l -> descending scoreKey (firstn n l).
Proof.
  intros H. revert n. induction H as [| a l Hl IH Ha]; intros n.
  - rewrite firstn_nil. constructor.
  - destruct n as [| n]; simpl; constructor.
    + apply IH.
    + rewrite Forall_forall in *. intros b Hb. apply Ha.
      rewrite <- (firstn_skipn n l). apply in_or_app. left. exact Hb.
Qed.

(** ** C8: loading the high scores *)

Lemma validHighScores_items (parsed : JValue) :
  validHighScores parsed = true <->
  exists items, parsed = JArr items /\ Forall entryShape items.
Proof.
  split.
  - destruct parsed as [| b | n | s | items | fields]; try discriminate.
    simpl. intros H. exists items. split; [reflexivity |].
    rewrite forallb_forall in H. apply Forall_forall.
    intros v Hv. apply validEntry_shape. apply H. exact Hv.
  - intros (items & -> & H). simpl. apply forallb_forall.
    rewrite Forall_forall in H. intros v Hv. apply validEntry_shape.
    apply H. exact Hv.
Qed.

(** How the load effect ends, by what the store holds. *)
Lemma loadHighScores_cases (JSON_parse : string -> option JValue)
    (st : GameState) :
  (exists items,
      persistedOk JSON_parse (storage st) items
      /\ storage st <> Some EmptyString
      /\ loadBody JSON_parse st = Normal (setHighScores items st)
      /\ loadHighScores JSON_parse st = setHighScores items st)
  \/ ((storage st = None \/ storage st = Some EmptyString)
      /\ loadBody JSON_parse st = Normal (setHighScores [] st)
      /\ loadHighScores JSON_parse st = setHighScores [] st)
  \/ ((exists text, storage st = Some text /\ text <> EmptyString
                    /\ forall items, JSON_parse text = Some (JArr items) ->
                                     ~ Forall entryShape items)
      /\ loadHighScores JSON_parse st
         = setHighScores [] (setStorage None st)).
Proof.
  unfold loadHighScores, loadBody.
  destruct (storage st) as [[| c s] |] eqn:Est.
  - right. left. auto.
  - destruct (JSON_parse (String c s)) as [parsed |] eqn:Ep.
    + destruct (validHighScores parsed) eqn:Ev.
      * left. apply validHighScores_items in Ev.
        destruct Ev as (items & -> & Hitems).
        exists items. split.
        { exists (String c s). split; [reflexivity |].
          split; [exact Ep | exact Hitems]. }
        split; [intros H; discriminate H | auto].
      * right. right. split; [| reflexivity].
        exists (String c s). split; [reflexivity |]. split; [discriminate |].
        intros items Hparse Hitems.
        assert (validHighScores parsed = true).
        { apply validHighScores_items. exists items.
          split; [congruence | exact Hitems]. }
        congruence.
    + right. right. split; [| reflexivity].
      exists (String c s). split; [reflexivity |]. split; [discriminate |].
      intros items Hparse. rewrite Ep in Hparse. discriminate Hparse.
  - right. left. auto.
Qed.

(** C8.  Whatever the store holds under the high-score key, the load
    effect ends normally.  The loaded list is the parsed list exactly when
    the stored text parses to an array whose elements are all objects with
    a [name] and a numeric [score] (the store is then left alone); when the
    entry is missing or empty, does not parse, is not an array or has an
    element of another shape, the loaded list is empty (and an unusable
    entry is removed).  Nothing but the list and the store entry changes,
    and what is loaded always passes the validation. *)
Theorem C8_load_high_scores :
  forall (JSON_parse : string -> option JValue) (st : GameState),
    JSON_parse EmptyString = None ->
    let st' := loadHighScores JSON_parse st in
    (forall items,
        persistedOk JSON_parse (storage st) items ->
        highScores st' = items /\ storage st' = storage st)
    /\ ((forall items, ~ persistedOk JSON_parse (storage st) items) ->
        highScores st' = []
        /\ (storage st' = None \/ storage st' = Some EmptyString))
    /\ ((exists text, storage st = Some text
                      /\ JSON_parse text = Some (JArr (highScores st')))
        <-> exists items, persistedOk JSON_parse (storage st) items)
    /\ st' = setHighScores (highScores st') (setStorage (storage st') st)
    /\ (loadBody JSON_parse st = Throws ->
        st' = setHighScores [] (setStorage None st))
    /\ Forall isValid (highScores st').
Proof.
  intros JSON_parse st Hempty st'.
  assert (Huniq : forall items items',
             persistedOk JSON_parse (storage st) items ->
             persistedOk JSON_parse (storage st) items' -> items = items').
  { intros items items' (t1 & E1 & P1 & _) (t2 & E2 & P2 & _). congruence. }
  destruct (loadHighScores_cases JSON_parse st)
    as [(items & Hok & Hne & Hbody & Hload)
       | [(Hmiss & Hbody & Hload) | ((text & Etext & Hne & Hbad) & Hload)]];
    subst st'; rewrite Hload.
  - (* a well-formed entry *)
    split; [intros items' Hok'; rewrite (Huniq _ _ Hok' Hok); auto |].
    split; [intros Hnone; exfalso; exact (Hnone items Hok) |].
    split.
    { split; [intros _; exists items; exact Hok |].
      intros _. destruct Hok as (text & E & P & _). exists text. auto. }
    split; [reflexivity |].
    split; [rewrite Hbody; discriminate |].
    destruct Hok as (_ & _ & _ & Hshape). simpl.
    eapply Forall_impl; [| exact Hshape].
    intros v Hv. apply validEntry_shape. exact Hv.
  - (* nothing stored, or the empty string *)
    assert (Hnot : forall items, ~ persistedOk JSON_parse (storage st) items).
    { intros items (text & E & P & _).
      destruct Hmiss as [Hm | Hm]; rewrite Hm in E; [discriminate |].
      injection E as <-. congruence. }
    split; [intros items Hok; exfalso; exact (Hnot items Hok) |].
    split; [intros _; split; [reflexivity | exact Hmiss] |].
    split.
    { split.
      - intros (text & E & P). exfalso.
        destruct Hmiss as [Hm | Hm]; rewrite Hm in E; [discriminate |].
        injection E as <-. congruence.
      - intros (items & Hok). exfalso. exact (Hnot items Hok). }
    split; [reflexivity |].
    split; [rewrite Hbody; discriminate | constructor].
  - (* an entry that does not parse or does not validate *)
    assert (Hnot : forall items, ~ persistedOk JSON_parse (storage st) items).
    { intros items (text' & E & P & Hshape).
      rewrite Etext in E. injection E as <-. exact (Hbad items P Hshape). }
    split; [intros items Hok; exfalso; exact (Hnot items Hok) |].
    split; [intros _; split; [reflexivity | left; reflexivity] |].
    split.
    { split.
      - intros (text' & E & P). exfalso.
        rewrite Etext in E. injection E as <-.
        apply (Hbad [] P). constructor.
      - intros (items & Hok). exfalso. exact (Hnot items Hok). }
    split; [reflexivity |].
    split; [intros _; reflexivity | constructor].
Qed.

Lemma C8_load_high_scores_witness :
  highScores (loadHighScores toyParse (setStorage (Some "best") initialState))
  = [mkEntry "Ann" 7; mkEntry "Bob" 3]
  /\ highScores (loadHighScores toyParse (setStorage (Some "{}") initialState))
     = []
  /\ highScores
       (loadHighScores toyParse (setStorage (Some "oops") initialState))
     = [].
Proof.
  destruct (C8_load_high_scores toyParse
              (setStorage (Some "best") initialState) eq_refl)
    as (H1 & _).
  destruct (C8_load_high_scores toyParse
              (setStorage (Some "{}") initialState) eq_refl)
    as (_ & H2 & _).
  destruct (C8_load_high_scores toyParse
              (setStorage (Some "oops") initialState) eq_refl)
    as (_ & H3 & _).
  split; [| split].
  - apply H1. exists "best". split; [reflexivity |]. split; [reflexivity |].
    repeat constructor; apply validEntry_shape; reflexivity.
  - apply H2. intros items (text & E & P & _).
    injection E as <-. discriminate.
  - apply H3. intros items (text & E & P & _).
    injection E as <-. discriminate.
Defined.

(** ** C7: saving a high score *)

(** [saveHighScore] has no truncation of its own: it stores the trimmed
    name whole.  The bound of 15 characters is that of the name field;
    a longer name, which the field never delivers, would be stored as it
    is. *)
Example saveHighScore_does_not_truncate :
  highScores (saveHighScore (fun _ => EmptyString)
                (setPlayerName "ABCDEFGHIJKLMNOP" initialState))
  = [mkEntry "ABCDEFGHIJKLMNOP" 0]
  /\ (15 < String.length "ABCDEFGHIJKLMNOP")%nat.
Proof. split; [reflexivity | simpl; lia]. Qed.

(** C7.  For every submitted name, which the name field (maxLength 15)
    delivers with at most 15 characters, and a list of valid entries, as
    the high scores are in every reachable state ([reachable_wellFormed]),
    [saveHighScore] strips the whitespace around the name, takes
    "Anonymous" when nothing is left, and stores at most 15 characters,
    the name so obtained; it appends the entry, sorts by
    descending score keeping entries of equal score in their order, keeps
    the first five and writes that list to the store.  With five or more
    entries all scoring at least the new score the new entry is dropped;
    with five entries of which the last scores lowest and below the new
    score, that last entry is the one dropped. *)
Theorem C7_save_high_score :
  forall (JSON_stringify : JValue -> string) (st : GameState),
    Forall isValid (highScores st) ->
    (String.length (playerName st) <= 15)%nat ->
    let name := orElse (trim (playerName st)) "Anonymous" in
    let entry := mkEntry name (score st) in
    let ranked := sort byScoreDesc (highScores st ++ [entry]) in
    let st' := saveHighScore JSON_stringify st in
    (exists pre post,
        chars (playerName st) = pre ++ chars (trim (playerName st)) ++ post
        /\ forallb isWhiteSpace pre = true
        /\ forallb isWhiteSpace post = true
        /\ startsClean (chars (trim (playerName st)))
        /\ startsClean (rev (chars (trim (playerName st)))))
    /\ name = (if blank (playerName st) then "Anonymous"%string
               else trim (playerName st))
    /\ (String.length name <= 15)%nat
    /\ Permutation ranked (highScores st ++ [entry])
    /\ descending scoreKey ranked
    /\ (forall n, withKey scoreKey n ranked
                  = withKey scoreKey n (highScores st ++ [entry]))
    /\ highScores st' = firstn 5 ranked
    /\ List.length (highScores st')
       = Nat.min 5 (S (List.length (highScores st)))
    /\ storage st' = Some (JSON_stringify (JArr (highScores st')))
    /\ st' = setShowNameInput false
               (setStorage (storage st') (setHighScores (highScores st') st))
    /\ Forall isValid (highScores st')
    /\ ((5 <= List.length (highScores st))%nat ->
        (forall v, In v (highScores st) -> score st <= scoreKey v) ->
        highScores st' = firstn 5 (sort byScoreDesc (highScores st)))
    /\ (forall l z,
          highScores st = l ++ [z] ->
          List.length l = 4%nat ->
          (forall v, In v l -> scoreKey z <= scoreKey v) ->
          scoreKey z < score st ->
          highScores st' = sort byScoreDesc (l ++ [entry])
          /\ In entry (highScores st')
          /\ Permutation (highScores st') (entry :: l)).
Proof.
  intros JSON_stringify st Hvalid Hlen name entry ranked st'.
  assert (Hall : Forall isValid (highScores st ++ [entry])).
  { apply Forall_app. split; [exact Hvalid |].
    constructor; [apply mkEntry_valid | constructor]. }
  assert (Hres : highScores st' = firstn 5 ranked) by reflexivity.
  assert (Hranked : Forall isValid ranked).
  { apply (sort_ok _ byScoreDesc). exact Hall. }
  split.
  { rewrite chars_trim. apply trimChars_split. }
  split; [apply name_or_anonymous |].
  split.
  { unfold name. rewrite name_or_anonymous.
    destruct (blank (playerName st)); [simpl; lia |].
    pose proof (trim_length (playerName st)). lia. }
  split; [apply sort_perm |].
  split; [apply (sort_descending _ _ _ _ byScoreDesc_key); exact Hall |].
  split; [intros n; apply (sort_withKey _ _ _ _ byScoreDesc_key); exact Hall |].
  split; [exact Hres |].
  split.
  { rewrite Hres, length_firstn. unfold ranked.
    rewrite sort_length, List.length_app.
    change (List.length [entry]) with 1%nat.
    rewrite Nat.add_1_r. reflexivity. }
  split; [reflexivity |].
  split; [reflexivity |].
  split.
  { rewrite Hres. rewrite Forall_forall in *. intros v Hv. apply Hranked.
    rewrite <- (firstn_skipn 5 ranked). apply in_or_app. left. exact Hv. }
  split.
  - intros Hfive Hlow. rewrite Hres. unfold ranked.
    rewrite sort_app_last.
    + rewrite firstn_app, sort_length.
      replace (5 - List.length (highScores st))%nat with 0%nat by lia.
      simpl. apply app_nil_r.
    + intros a Ha. rewrite byScoreDesc_key.
      * unfold entry. rewrite scoreKey_mkEntry. specialize (Hlow a Ha). lia.
      * rewrite Forall_forall in Hvalid. apply Hvalid. exact Ha.
      * apply mkEntry_valid.
  - intros l z El Hl4 Hmin Hbeat.
    assert (Hlz : Forall isValid l /\ isValid z).
    { rewrite El in Hvalid. apply Forall_app in Hvalid.
      destruct Hvalid as [Hl Hz]. split; [exact Hl |].
      inversion Hz; assumption. }
    destruct Hlz as [Hvl Hvz].
    assert (E : ranked = sort byScoreDesc (l ++ [entry]) ++ [z]).
    { unfold ranked. rewrite El, <- app_assoc. simpl.
      apply sort_app_last_two.
      - rewrite (byScoreDesc_key z entry Hvz (mkEntry_valid _ _)).
        unfold entry. rewrite scoreKey_mkEntry. lia.
      - intros a Ha. rewrite byScoreDesc_key.
        + specialize (Hmin a Ha). lia.
        + rewrite Forall_forall in Hvl. apply Hvl. exact Ha.
        + exact Hvz. }
    assert (Hfirst : highScores st' = sort byScoreDesc (l ++ [entry])).
    { rewrite Hres, E, firstn_app, sort_length, List.length_app, Hl4.
      simpl (5 - _)%nat. simpl firstn at 2. rewrite app_nil_r.
      apply firstn_all2. rewrite sort_length, List.length_app, Hl4.
      simpl. lia. }
    assert (Hperm : Permutation (highScores st') (entry :: l)).
    { rewrite Hfirst. apply perm_trans with (l ++ [entry]).
      - apply sort_perm.
      - apply Permutation_sym, Permutation_cons_append. }
    split; [exact Hfirst |]. split; [| exact Hperm].
    apply (Permutation_in _ (Permutation_sym Hperm)). left. reflexivity.
Qed.

Lemma C7_save_high_score_witness :
  highScores (saveHighScore (fun _ => EmptyString) rankedState)
  = [mkEntry "A" 50; mkEntry "B" 40; mkEntry "Zed" 35; mkEntry "C" 30;
     mkEntry "D" 20]
  /\ In (mkEntry "Zed" 35)
        (highScores (saveHighScore (fun _ => EmptyString) rankedState)).
Proof.
  assert (Hvalid : Forall isValid (highScores rankedState))
    by (repeat constructor).
  assert (Hlen : (String.length (playerName rankedState) <= 15)%nat)
    by (simpl; lia).
  destruct (C7_save_high_score (fun _ => EmptyString) rankedState Hvalid Hlen)
    as (_ & _ & _ & _ & _ & _ & H7 & _ & _ & _ & _ & _ & H13).
  split.
  - rewrite H7. reflexivity.
  - apply (H13 [mkEntry "A" 50; mkEntry "B" 40; mkEntry "C" 30; mkEntry "D" 20]
             (mkEntry "E" 10)).
    + reflexivity.
    + reflexivity.
    + intros v Hv. simpl in Hv.
      destruct Hv as [<- | [<- | [<- | [<- | []]]]]; vm_compute; discriminate.
    + reflexivity.
Defined.

(** Equal scores keep their order: the newcomer goes behind the entry it
    ties with, and a newcomer tying with the fifth entry is dropped. *)
Example saveHighScore_ties :
  highScores (saveHighScore (fun _ => EmptyString)
                (setScore 30 rankedState))
  = [mkEntry "A" 50; mkEntry "B" 40; mkEntry "C" 30; mkEntry "Zed" 30;
     mkEntry "D" 20]
  /\ highScores (saveHighScore (fun _ => EmptyString)
                   (setScore 10 rankedState))
     = highScores rankedState.
Proof. split; reflexivity. Qed.

(** ** Reachable states *)

(** The hypotheses of the claims above on the snake, the high scores and
    the name hold in every state reached from the initial one. *)

Lemma wellFormed_kept (st st' : GameState) :
  snake st' = snake st ->
  highScores st' = highScores st ->
  playerName st' = playerName st ->
  wellFormed st -> wellFormed st'.
Proof. unfold wellFormed. intros -> -> ->. auto. Qed.

Ltac kept :=
  split_ifs;
  repeat (simpl;
          rewrite ?snake_playSound, ?highScores_playSound,
            ?playerName_playSound);
  reflexivity.

Lemma moveSnake_wellFormed fuel rnd k st st' k' :
  moveSnake fuel rnd k st = Some (st', k') ->
  wellFormed st -> wellFormed st'.
Proof.
  intros Hm (Hsn & Hhs & Hnm).
  destruct (snake st) as [| h t] eqn:Hs; [contradiction |].
  rewrite (moveSnake_cons _ _ _ _ _ _ Hs) in Hm. cbv zeta in Hm.
  destruct (onSnake (moveHead (direction st) h) t).
  { injection Hm as <- <-. unfold wellFormed.
    rewrite snake_playSound, highScores_playSound, playerName_playSound.
    simpl. rewrite Hs. auto. }
  destruct (negb (sameCell (moveHead (direction st) h) (food st))).
  { injection Hm as <- <-. unfold wellFormed. simpl.
    split; [discriminate | auto]. }
  destruct (generateFood fuel st rnd k) as [[f kf] |]; [| discriminate].
  injection Hm as <- <-. unfold wellFormed. simpl.
  rewrite highScores_playSound, playerName_playSound. simpl.
  split; [discriminate | auto].
Qed.

Section Reachable.

Variable JSON_parse : string -> option JValue.
Variable JSON_stringify : JValue -> string.

Lemma step_wellFormed fuel rnd k st e st' k' :
  admissible e ->
  step JSON_parse JSON_stringify fuel rnd k st e = Some (st', k') ->
  wellFormed st -> wellFormed st'.
Proof.
  intros Hadm Hstep Hwf. destruct e; simpl in Hstep.
  - (* Mount *)
    injection Hstep as <- <-. destruct Hwf as (Hsn & Hhs & Hnm).
    destruct (loadHighScores_cases JSON_parse st)
      as [(items & (text & _ & _ & Hshape) & _ & _ & ->)
         | [(_ & _ & ->) | (_ & ->)]];
      unfold wellFormed; simpl; repeat split; auto.
    eapply Forall_impl; [| exact Hshape].
    intros v Hv. apply validEntry_shape. exact Hv.
  - (* Frame *)
    unfold tick in Hstep.
    destruct (negb (gameStarted st) || gameOver st || paused st).
    + injection Hstep as <- <-. exact Hwf.
    + eapply moveSnake_wellFormed; eassumption.
  - injection Hstep as <- <-.
    apply (wellFormed_kept st); [unfold updateLevel; kept .. | exact Hwf].
  - injection Hstep as <- <-.
    apply (wellFormed_kept st); [unfold handleKeyPress; kept .. | exact Hwf].
  - injection Hstep as <- <-.
    apply (wellFormed_kept st);
      [unfold handleDirectionChange; kept .. | exact Hwf].
  - injection Hstep as <- <-.
    apply (wellFormed_kept st); [unfold togglePause; kept .. | exact Hwf].
  - injection Hstep as <- <-.
    apply (wellFormed_kept st); [unfold endGame; kept .. | exact Hwf].
  - injection Hstep as <- <-. exact Hwf.
  - (* NameChange *)
    injection Hstep as <- <-. destruct Hwf as (Hsn & Hhs & _).
    unfold wellFormed. simpl. auto.
  - (* SaveScoreButton *)
    injection Hstep as <- <-. destruct Hwf as (Hsn & Hhs & Hnm).
    set (entry := mkEntry (orElse (trim (playerName st)) "Anonymous")
                    (score st)).
    set (ranked := sort byScoreDesc (highScores st ++ [entry])).
    unfold wellFormed.
    change (snake st <> []
            /\ Forall isValid (firstn 5 ranked)
            /\ (String.length (playerName st) <= 15)%nat).
    split; [exact Hsn |]. split; [| exact Hnm].
    assert (Hall : Forall isValid ranked).
    { apply (sort_ok _ byScoreDesc). apply Forall_app.
      split; [exact Hhs |]. constructor; [apply mkEntry_valid | constructor]. }
    rewrite Forall_forall in *. intros v Hv. apply Hall.
    rewrite <- (firstn_skipn 5 ranked). apply in_or_app. left. exact Hv.
  - (* PlayAgainButton *)
    unfold resetGame in Hstep.
    destruct (generateFood fuel st rnd k) as [[f kf] |]; [| discriminate].
    injection Hstep as <- <-. destruct Hwf as (Hsn & Hhs & Hnm).
    unfold wellFormed. simpl. split; [discriminate |]. split; [exact Hhs | lia].
Qed.

Lemma run_wellFormed fuel rnd es :
  forall k st st' k',
    Forall admissible es ->
    run JSON_parse JSON_stringify fuel rnd k st es = Some (st', k') ->
    wellFormed st -> wellFormed st'.
Proof.
  induction es as [| e es IH]; intros k st st' k' Hadm Hrun Hwf.
  - injection Hrun as <- <-. exact Hwf.
  - inversion Hadm as [| ? ? He Hes]; subst. simpl in Hrun.
    destruct (step JSON_parse JSON_stringify fuel rnd k st e)
      as [[s1 k1] |] eqn:Hstep; [| discriminate].
    apply (IH k1 s1 st' k' Hes Hrun).
    exact (step_wellFormed fuel rnd k st e s1 k1 He Hstep Hwf).
Qed.

Lemma reachable_wellFormed fuel rnd es st k :
  Forall admissible es ->
  run JSON_parse JSON_stringify fuel rnd 0 initialState es = Some (st, k) ->
  wellFormed st.
Proof.
  intros Hadm Hrun. apply (run_wellFormed fuel rnd es _ _ _ _ Hadm Hrun).
  unfold wellFormed. simpl. split; [discriminate |]. split; [constructor | lia].
Qed.

End Reachable.

(** * Further properties of the component *)

(** ** What [playSound] leaves alone *)

Lemma score_playSound c s : score (playSound c s) = score s.
Proof. sound_cases s. Qed.
Lemma level_playSound c s : level (playSound c s) = level s.
Proof. sound_cases s. Qed.
Lemma speed_playSound c s : speed (playSound c s) = speed s.
Proof. sound_cases s. Qed.
Lemma direction_playSound c s : direction (playSound c s) = direction s.
Proof. sound_cases s. Qed.
Lemma showNameInput_playSound c s :
  showNameInput (playSound c s) = showNameInput s.
Proof. sound_cases s. Qed.
Lemma storage_playSound c s : storage (playSound c s) = storage s.
Proof. sound_cases s. Qed.
Lemma soundEnabled_playSound c s :
  soundEnabled (playSound c s) = soundEnabled s.
Proof.
  unfold playSound. destruct (soundEnabled s) eqn:E; simpl; exact E.
Qed.

(** Projections pushed through setters and [playSound]. *)
Ltac project :=
  repeat (simpl;
          rewrite ?snake_playSound, ?food_playSound, ?gameOver_playSound,
            ?gameStarted_playSound, ?paused_playSound,
            ?highScores_playSound, ?playerName_playSound,
            ?score_playSound, ?level_playSound, ?speed_playSound,
            ?direction_playSound, ?showNameInput_playSound,
            ?storage_playSound, ?soundEnabled_playSound).

(** ** The body of the snake under a move *)

Lemma moveHead_neq (d : Direction) (h : Cell) : moveHead d h <> h.
Proof.
  destruct h as [hx hy]. unfold moveHead, gridSize. simpl.
  destruct d; intros H; injection H as H;
    match goal with
    | H : (if ?a =? ?b then _ else _) = _ |- _ =>
        destruct (Z.eqb_spec a b); lia
    end.
Qed.

Lemma moveHead_inGrid (d : Direction) (h : Cell) :
  inGrid h -> inGrid (moveHead d h).
Proof.
  intros H. rewrite (moveHead_wrapStep d h H). apply wrapStep_inGrid.
Qed.

Lemma removelast_cons2 (a b : Cell) (l : list Cell) :
  removelast (a :: b :: l) = a :: removelast (b :: l).
Proof. reflexivity. Qed.

Lemma In_removelast (c : Cell) (l : list Cell) :
  In c (removelast l) -> In c l.
Proof.
  induction l as [| a l IH]; [intros [] |].
  destruct l as [| b l]; [intros [] |].
  rewrite removelast_cons2. intros [H | H]; [left; exact H |].
  right. apply IH. exact H.
Qed.

Lemma NoDup_removelast (l : list Cell) : NoDup l -> NoDup (removelast l).
Proof.
  induction l as [| a l IH]; intros H; [constructor |].
  destruct l as [| b l]; [constructor |].
  rewrite removelast_cons2. inversion H as [| ? ? Hin Hnd]; subst.
  constructor; [| apply IH; exact Hnd].
  intros Hc. apply Hin. apply In_removelast. exact Hc.
Qed.

Lemma Forall_removelast (P : Cell -> Prop) (l : list Cell) :
  Forall P l -> Forall P (removelast l).
Proof.
  intros H. rewrite Forall_forall in *. intros c Hc.
  apply H. apply In_removelast. exact Hc.
Qed.

Lemma chained_removelast (l : list Cell) :
  chained l -> chained (removelast l).
Proof.
  induction l as [| a l IH]; intros H; [exact I |].
  destruct l as [| b l]; [exact I |].
  rewrite removelast_cons2.
  destruct l as [| c l]; [exact I |].
  rewrite removelast_cons2 in *. destruct H as [Hab Hrest].
  split; [exact Hab |]. apply IH. exact Hrest.
Qed.

Lemma chained_cons_removelast (a h : Cell) (t : list Cell) :
  adjacent a h -> chained (h :: t) -> chained (a :: removelast (h :: t)).
Proof.
  intros Hah Hc. pose proof (chained_removelast _ Hc) as Hr.
  destruct t as [| b t]; [exact I |].
  rewrite removelast_cons2 in *. split; assumption.
Qed.

(** ** One event keeps the invariant *)

Lemma gameInv_kept (st st' : GameState) :
  snake st' = snake st ->
  score st' = score st ->
  level st' = level st ->
  speed st' = speed st ->
  flagsOk st' ->
  gameInv st -> gameInv st'.
Proof.
  unfold gameInv. intros -> -> -> -> Hf H.
  destruct H as (H1 & H2 & H3 & H4 & H5 & _ & H7 & H8 & H9).
  split; [exact H1 |]. split; [exact H2 |]. split; [exact H3 |].
  split; [exact H4 |]. split; [exact H5 |]. split; [exact Hf |].
  split; [exact H7 |]. split; [exact H8 | exact H9].
Qed.

Ltac flags_cases st :=
  match goal with
  | H : flagsOk st |- _ => unfold flagsOk in H; revert H
  end;
  destruct (gameStarted st) eqn:?, (gameOver st) eqn:?, (paused st) eqn:?,
    (showNameInput st) eqn:?;
  intros H;
  repeat (simpl;
          rewrite ?andb_false_r, ?andb_true_r, ?orb_false_r, ?orb_true_r);
  split_ifs; unfold flagsOk; project;
  repeat match goal with
         | E : _ = _ |- _ => rewrite E
         end;
  simpl in *; intuition congruence.

Lemma handleKeyPress_flags key st :
  flagsOk st -> flagsOk (handleKeyPress key st).
Proof. intros Hf. unfold handleKeyPress. flags_cases st. Qed.

Lemma handleDirectionChange_flags d st :
  flagsOk st -> flagsOk (handleDirectionChange d st).
Proof. intros Hf. unfold handleDirectionChange. flags_cases st. Qed.

Lemma togglePause_flags st : flagsOk st -> flagsOk (togglePause st).
Proof. intros Hf. unfold togglePause. flags_cases st. Qed.

Lemma endGame_flags st : flagsOk st -> flagsOk (endGame st).
Proof. intros Hf. unfold endGame. flags_cases st. Qed.

Lemma flagsOk_kept (st st' : GameState) :
  gameStarted st' = gameStarted st ->
  gameOver st' = gameOver st ->
  paused st' = paused st ->
  showNameInput st' = showNameInput st ->
  flagsOk st -> flagsOk st'.
Proof. unfold flagsOk. intros -> -> -> ->. auto. Qed.

Lemma onSnake_head_false (c h : Cell) (t : list Cell) :
  c <> h -> onSnake c t = false -> ~ In c (h :: t).
Proof.
  intros Hne Hon [H | H]; [congruence |].
  apply onSnake_false_iff in Hon. exact (Hon H).
Qed.

Lemma tick_gameInv fuel rnd k st st' k' :
  tick fuel rnd k st = Some (st', k') ->
  gameInv st -> gameInv st'.
Proof.
  intros Ht Hinv.
  destruct (phase st) eqn:Hph;
    try (rewrite tick_not_Running in Ht by (rewrite Hph; discriminate);
         injection Ht as <- <-; exact Hinv).
  pose proof Hinv as (Hsc & Hlen & Hnd & Hch & Hgrid & Hfl & Hlv & Hlag & Hsp).
  apply phase_Running in Hph as Hflags. destruct Hflags as (Hst & Hov & Hpa).
  destruct (snake st) as [| h t] eqn:Hs; [simpl in Hlen; lia |].
  rewrite (tick_cases _ _ _ _ _ _ Hph Hs) in Ht.
  set (head := moveHead (direction st) h) in *.
  assert (Hadj : adjacent head h) by (exists (direction st); reflexivity).
  assert (Hhg : inGrid head)
    by (apply moveHead_inGrid; inversion Hgrid; assumption).
  destruct (onSnake head t) eqn:Hon.
  - (* the game ends *)
    injection Ht as <- <-. apply (gameInv_kept st); try exact Hinv; project;
      try reflexivity.
    unfold flagsOk. project. rewrite Hst, Hpa. intuition congruence.
  - assert (Hfresh : ~ In head (h :: t)).
    { apply onSnake_head_false; [apply moveHead_neq | exact Hon]. }
    destruct (negb (sameCell head (food st))).
    + (* the snake moves on *)
      assert (Hmove : gameInv (setSnake (head :: removelast (h :: t)) st));
        [| injection Ht as <- <-; exact Hmove].
      unfold gameInv.
      cbn [snake food score level speed setSnake].
      split; [exact Hsc |].
      split.
      { change (Z.of_nat (S (List.length (removelast (h :: t))))
                = score st + 1).
        rewrite length_removelast_cons. rewrite <- Hlen. reflexivity. }
      split.
      { constructor; [| apply NoDup_removelast; exact Hnd].
        intros Hc. apply Hfresh. apply In_removelast. exact Hc. }
      split; [apply chained_cons_removelast; [exact Hadj | exact Hch] |].
      split.
      { constructor; [exact Hhg | apply Forall_removelast; exact Hgrid]. }
      split; [apply (flagsOk_kept st); reflexivity || exact Hfl |].
      split; [exact Hlv |]. split; [exact Hlag | exact Hsp].
    + (* the snake eats *)
      destruct (generateFood fuel st rnd k) as [[f kf] |] eqn:G;
        [| discriminate].
      injection Ht as <- <-.
      unfold gameInv. project.
      split; [lia |].
      split.
      { change (Z.of_nat (S (List.length (h :: t))) = score st + 1 + 1).
        rewrite Nat2Z.inj_succ. lia. }
      split; [constructor; [exact Hfresh | exact Hnd] |].
      split; [split; [exact Hadj | exact Hch] |].
      split; [constructor; [exact Hhg | exact Hgrid] |].
      split; [apply (flagsOk_kept st); project; auto |].
      split; [exact Hlv |]. split; [| exact Hsp].
      assert (score st / 10 <= (score st + 1) / 10)
        by (apply Z.div_le_mono; lia).
      lia.
Qed.

Lemma calculateSpeed_1 : calculateSpeed 1 = initialSpeed.
Proof. reflexivity. Qed.

Lemma updateLevel_gameInv st : gameInv st -> gameInv (updateLevel st).
Proof.
  intros Hinv.
  pose proof Hinv as (Hsc & Hlen & Hnd & Hch & Hgrid & Hfl & Hlv & Hlag & Hsp).
  assert (Hcl : 1 <= Z.min (score st / 10 + 1) 10 <= 10).
  { pose proof (Z.div_pos (score st) 10 Hsc ltac:(lia)). lia. }
  unfold updateLevel.
  destruct (negb (Z.min (score st / 10 + 1) 10 =? level st));
    [| exact Hinv].
  destruct ((level st >? 1) || (Z.min (score st / 10 + 1) 10 >? 1));
    unfold gameInv; project;
    (split; [exact Hsc |]); (split; [exact Hlen |]); (split; [exact Hnd |]);
    (split; [exact Hch |]); (split; [exact Hgrid |]);
    (split; [apply (flagsOk_kept st); project; auto |]);
    (split; [exact Hcl |]); (split; [lia | reflexivity]).
Qed.

Section ReachableGame.

Variable JSON_parse : string -> option JValue.
Variable JSON_stringify : JValue -> string.

Lemma step_gameInv fuel rnd k st e st' k' :
  step JSON_parse JSON_stringify fuel rnd k st e = Some (st', k') ->
  gameInv st -> gameInv st'.
Proof.
  intros Hstep Hinv. pose proof Hinv as Hall.
  destruct Hall as (Hsc & Hlen & Hnd & Hch & Hgrid & Hfl & Hlv & Hlag & Hsp).
  destruct e; simpl in Hstep.
  - (* Mount *)
    injection Hstep as <- <-.
    destruct (loadHighScores_cases JSON_parse st)
      as [(items & _ & _ & _ & ->) | [(_ & _ & ->) | (_ & ->)]];
      exact Hinv.
  - eapply tick_gameInv; eassumption.
  - injection Hstep as <- <-. apply updateLevel_gameInv. exact Hinv.
  - injection Hstep as <- <-.
    apply (gameInv_kept st);
      [unfold handleKeyPress; split_ifs; project; reflexivity ..
      | apply handleKeyPress_flags; exact Hfl | exact Hinv].
  - injection Hstep as <- <-.
    apply (gameInv_kept st);
      [unfold handleDirectionChange; split_ifs; project; reflexivity ..
      | apply handleDirectionChange_flags; exact Hfl | exact Hinv].
  - injection Hstep as <- <-.
    apply (gameInv_kept st);
      [unfold togglePause; split_ifs; project; reflexivity ..
      | apply togglePause_flags; exact Hfl | exact Hinv].
  - injection Hstep as <- <-.
    apply (gameInv_kept st);
      [unfold endGame; split_ifs; project; reflexivity ..
      | apply endGame_flags; exact Hfl | exact Hinv].
  - injection Hstep as <- <-. exact Hinv.
  - injection Hstep as <- <-. exact Hinv.
  - (* SaveScoreButton *)
    injection Hstep as <- <-.
    apply (gameInv_kept st); try reflexivity; [| exact Hinv].
    unfold flagsOk in *. simpl. intuition congruence.
  - (* PlayAgainButton *)
    unfold resetGame in Hstep.
    destruct (generateFood fuel st rnd k) as [[f kf] |] eqn:G;
      [| discriminate].
    injection Hstep as <- <-.
    unfold gameInv, flagsOk. simpl.
    split; [lia |]. split; [reflexivity |].
    split; [constructor; [intros [] | constructor] |].
    split; [exact I |].
    split; [constructor; [unfold inGrid, gridSize; simpl; lia | constructor] |].
    split; [intuition congruence |].
    split; [lia |]. split; [lia | reflexivity].
Qed.

Lemma run_gameInv fuel rnd es :
  forall k st st' k',
    run JSON_parse JSON_stringify fuel rnd k st es = Some (st', k') ->
    gameInv st -> gameInv st'.
Proof.
  induction es as [| e es IH]; intros k st st' k' Hrun Hinv.
  - injection Hrun as <- <-. exact Hinv.
  - simpl in Hrun.
    destruct (step JSON_parse JSON_stringify fuel rnd k st e)
      as [[s1 k1] |] eqn:Hstep; [| discriminate].
    apply (IH k1 s1 st' k' Hrun).
    exact (step_gameInv fuel rnd k st e s1 k1 Hstep Hinv).
Qed.

End ReachableGame.

Lemma initialState_gameInv : gameInv initialState.
Proof.
  unfold gameInv, flagsOk. simpl.
  split; [lia |]. split; [reflexivity |].
  split; [constructor; [intros [] | constructor] |].
  split; [exact I |].
  split; [constructor; [unfold inGrid, gridSize; simpl; lia | constructor] |].
  split; [intuition congruence |].
  split; [lia |]. split; [lia | reflexivity].
Qed.

(** ** Which events write which part of the state *)

Section Frames.

Variable JSON_parse : string -> option JValue.
Variable JSON_stringify : JValue -> string.

Lemma loadHighScores_keeps_game st :
  snake (loadHighScores JSON_parse st) = snake st
  /\ food (loadHighScores JSON_parse st) = food st
  /\ score (loadHighScores JSON_parse st) = score st
  /\ direction (loadHighScores JSON_parse st) = direction st
  /\ played (loadHighScores JSON_parse st) = played st
  /\ soundEnabled (loadHighScores JSON_parse st) = soundEnabled st.
Proof.
  destruct (loadHighScores_cases JSON_parse st)
    as [(items & _ & _ & _ & ->) | [(_ & _ & ->) | (_ & ->)]];
    repeat split.
Qed.

Lemma step_keeps_game fuel rnd k st e st' k' :
  movesTheGame e = false ->
  step JSON_parse JSON_stringify fuel rnd k st e = Some (st', k') ->
  snake st' = snake st /\ food st' = food st /\ score st' = score st
  /\ k' = k.
Proof.
  intros He Hstep.
  destruct e; try discriminate; simpl in Hstep; injection Hstep as <- <-.
  - destruct (loadHighScores_keeps_game st) as (H1 & H2 & H3 & _). auto.
  - unfold updateLevel. split_ifs; project; auto.
  - unfold handleKeyPress. split_ifs; project; auto.
  - unfold handleDirectionChange. split_ifs; project; auto.
  - unfold togglePause. split_ifs; project; auto.
  - unfold endGame. split_ifs; project; auto.
  - auto.
  - auto.
  - auto.
Qed.

Lemma tick_keeps_store fuel rnd k st st' k' :
  tick fuel rnd k st = Some (st', k') ->
  highScores st' = highScores st /\ storage st' = storage st
  /\ playerName st' = playerName st /\ direction st' = direction st
  /\ level st' = level st /\ speed st' = speed st.
Proof.
  unfold tick, moveSnake.
  destruct (negb (gameStarted st) || gameOver st || paused st);
    [intros H; injection H as <- <-; repeat split |].
  destruct (snake st) as [| h t];
    [intros H; injection H as <- <-; repeat split |].
  cbv zeta.
  match goal with |- context [if ?b then _ else _] => destruct b end;
    [intros H; injection H as <- <-; project; repeat split |].
  match goal with |- context [if ?b then _ else _] => destruct b end;
    [intros H; injection H as <- <-; repeat split |].
  destruct (generateFood fuel st rnd k) as [[f kf] |]; [| discriminate].
  intros H; injection H as <- <-. project. repeat split.
Qed.

Lemma step_keeps_store fuel rnd k st e st' k' :
  writesTheStore e = false ->
  step JSON_parse JSON_stringify fuel rnd k st e = Some (st', k') ->
  highScores st' = highScores st /\ storage st' = storage st.
Proof.
  intros He Hstep. destruct e; try discriminate; simpl in Hstep.
  - apply tick_keeps_store in Hstep. destruct Hstep as (H1 & H2 & _). auto.
  - injection Hstep as <- <-. unfold updateLevel. split_ifs; project; auto.
  - injection Hstep as <- <-. unfold handleKeyPress. split_ifs; project; auto.
  - injection Hstep as <- <-. unfold handleDirectionChange.
    split_ifs; project; auto.
  - injection Hstep as <- <-. unfold togglePause. split_ifs; project; auto.
  - injection Hstep as <- <-. unfold endGame. split_ifs; project; auto.
  - injection Hstep as <- <-. auto.
  - injection Hstep as <- <-. auto.
  - unfold resetGame in Hstep.
    destruct (generateFood fuel st rnd k) as [[f kf] |]; [| discriminate].
    injection Hstep as <- <-. auto.
Qed.

Lemma step_food_inGrid fuel rnd k st e st' k' :
  (forall i, inGrid (rnd i)) ->
  step JSON_parse JSON_stringify fuel rnd k st e = Some (st', k') ->
  inGrid (food st) -> inGrid (food st').
Proof.
  intros Hrnd Hstep Hfood.
  destruct (movesTheGame e) eqn:He.
  - destruct e; try discriminate; simpl in Hstep.
    + unfold tick, moveSnake in Hstep.
      destruct (negb (gameStarted st) || gameOver st || paused st);
        [injection Hstep as <- <-; exact Hfood |].
      destruct (snake st) as [| h t];
        [injection Hstep as <- <-; exact Hfood |].
      cbv zeta in Hstep.
      match type of Hstep with context [if ?b then _ else _] =>
        destruct b end;
        [injection Hstep as <- <-; project; exact Hfood |].
      match type of Hstep with context [if ?b then _ else _] =>
        destruct b end;
        [injection Hstep as <- <-; exact Hfood |].
      destruct (generateFood fuel st rnd k) as [[f kf] |] eqn:G;
        [| discriminate].
      injection Hstep as <- <-. project.
      apply generateFood_returns in G. destruct G as (n & _ & -> & _).
      apply Hrnd.
    + unfold resetGame in Hstep.
      destruct (generateFood fuel st rnd k) as [[f kf] |] eqn:G;
        [| discriminate].
      injection Hstep as <- <-. simpl.
      apply generateFood_returns in G. destruct G as (n & _ & -> & _).
      apply Hrnd.
  - destruct (step_keeps_game fuel rnd k st e st' k' He Hstep)
      as (_ & -> & _).
    exact Hfood.
Qed.

Lemma run_food_inGrid fuel rnd es :
  (forall i, inGrid (rnd i)) ->
  forall k st st' k',
    run JSON_parse JSON_stringify fuel rnd k st es = Some (st', k') ->
    inGrid (food st) -> inGrid (food st').
Proof.
  intros Hrnd. induction es as [| e es IH]; intros k st st' k' Hrun Hfood.
  - injection Hrun as <- <-. exact Hfood.
  - simpl in Hrun.
    destruct (step JSON_parse JSON_stringify fuel rnd k st e)
      as [[s1 k1] |] eqn:Hstep; [| discriminate].
    apply (IH k1 s1 st' k' Hrun).
    exact (step_food_inGrid fuel rnd k st e s1 k1 Hrnd Hstep Hfood).
Qed.

End Frames.

(** X13.  Only a frame of the game loop and Play Again write the snake, the
    food or the score or draw from the random source; only the load effect
    and Save Score write the high scores or the store; a frame also leaves
    the direction, the level, the speed and the typed name as they are. *)
Theorem event_write_sets :
  forall (JSON_parse : string -> option JValue)
         (JSON_stringify : JValue -> string)
         fuel rnd k st e st' k',
    step JSON_parse JSON_stringify fuel rnd k st e = Some (st', k') ->
    (movesTheGame e = false ->
     snake st' = snake st /\ food st' = food st /\ score st' = score st
     /\ k' = k)
    /\ (writesTheStore e = false ->
        highScores st' = highScores st /\ storage st' = storage st)
    /\ (e = Frame ->
        direction st' = direction st /\ level st' = level st
        /\ speed st' = speed st /\ playerName st' = playerName st).
Proof.
  intros JSON_parse JSON_stringify fuel rnd k st e st' k' Hstep.
  split; [| split].
  - intros He. exact (step_keeps_game _ _ _ _ _ _ _ _ _ He Hstep).
  - intros He. exact (step_keeps_store _ _ _ _ _ _ _ _ _ He Hstep).
  - intros ->. simpl in Hstep. apply tick_keeps_store in Hstep.
    destruct Hstep as (_ & _ & H3 & H4 & H5 & H6). auto.
Qed.

Lemma event_write_sets_witness :
  snake (handleKeyPress "ArrowUp" feedingState) = snake feedingState
  /\ score (handleKeyPress "ArrowUp" feedingState) = score feedingState
  /\ highScores (handleKeyPress "ArrowUp" feedingState)
     = highScores feedingState.
Proof.
  destruct (event_write_sets toyParse toyStringify 0 (fun _ => mkCell 0 0) 0
              feedingState (KeyDown "ArrowUp")
              (handleKeyPress "ArrowUp" feedingState) 0%nat eq_refl)
    as (H1 & H2 & _).
  destruct (H1 eq_refl) as (Ha & _ & Hb & _).
  destruct (H2 eq_refl) as (Hc & _).
  auto.
Defined.

(** ** Reachable states of the game *)

(** X1.  In every state reached from the initial one the three flags
    [gameStarted], [gameOver] and [paused] take one of four combinations
    (not started, running, paused, over), the name field is up only when
    the game is over, and the component draws the start overlay exactly
    before the start, the pause overlay exactly while paused, the game-over
    overlay exactly when over, and never two at once. *)
Theorem reachable_phase_flags :
  forall (JSON_parse : string -> option JValue)
         (JSON_stringify : JValue -> string)
         fuel rnd es st k,
    run JSON_parse JSON_stringify fuel rnd 0 initialState es = Some (st, k) ->
    (gameStarted st, gameOver st, paused st)
    = match phase st with
      | NotStarted => (false, false, false)
      | Running => (true, false, false)
      | Paused => (true, false, true)
      | GameOver => (true, true, false)
      end
    /\ (showNameInput st = true -> phase st = GameOver)
    /\ overlays st
       = match phase st with
         | NotStarted => [StartOverlay]
         | Running => []
         | Paused => [PauseOverlay]
         | GameOver => [GameOverOverlay]
         end.
Proof.
  intros JSON_parse JSON_stringify fuel rnd es st k Hrun.
  pose proof (run_gameInv JSON_parse JSON_stringify fuel rnd es _ _ _ _
                Hrun initialState_gameInv)
    as (_ & _ & _ & _ & _ & Hfl & _).
  unfold flagsOk in Hfl. unfold phase, overlays.
  destruct (gameStarted st), (gameOver st), (paused st), (showNameInput st);
    simpl in *; intuition congruence.
Qed.

Lemma reachable_phase_flags_witness :
  overlays (togglePause (handleKeyPress "ArrowUp" initialState))
  = [PauseOverlay].
Proof.
  destruct (reachable_phase_flags toyParse toyStringify 0
              (fun _ => mkCell 0 0) [KeyDown "ArrowUp"; PauseButton]
              (togglePause (handleKeyPress "ArrowUp" initialState)) 0%nat
              eq_refl)
    as (_ & _ & H).
  exact H.
Defined.

(** X2.  In every state reached from the initial one the snake has exactly
    [score + 1] cells (so at least one), no cell occurs twice in it, and
    each cell is a neighbour, on the torus, of the cell behind it. *)
Theorem reachable_snake_shape :
  forall (JSON_parse : string -> option JValue)
         (JSON_stringify : JValue -> string)
         fuel rnd es st k,
    run JSON_parse JSON_stringify fuel rnd 0 initialState es = Some (st, k) ->
    Z.of_nat (List.length (snake st)) = score st + 1
    /\ snake st <> []
    /\ NoDup (snake st)
    /\ chained (snake st).
Proof.
  intros JSON_parse JSON_stringify fuel rnd es st k Hrun.
  pose proof (run_gameInv JSON_parse JSON_stringify fuel rnd es _ _ _ _
                Hrun initialState_gameInv)
    as (Hsc & Hlen & Hnd & Hch & _).
  split; [exact Hlen |]. split; [| split; assumption].
  intros E. rewrite E in Hlen. simpl in Hlen. lia.
Qed.

Lemma reachable_snake_shape_witness :
  exists st,
    run toyParse toyStringify 1 (fun _ => mkCell 3 3) 0 initialState
      [KeyDown "ArrowRight"; Frame; Frame] = Some (st, 0%nat)
    /\ Z.of_nat (List.length (snake st)) = score st + 1
    /\ NoDup (snake st).
Proof.
  eexists. split; [reflexivity |].
  match goal with
  | |- Z.of_nat (List.length (snake ?s)) = _ /\ _ =>
      destruct (reachable_snake_shape toyParse toyStringify 1
                  (fun _ => mkCell 3 3)
                  [KeyDown "ArrowRight"; Frame; Frame] s 0%nat eq_refl)
        as (H1 & _ & H3 & _)
  end.
  split; [exact H1 | exact H3].
Defined.

(** X3.  When every drawn cell lies on the grid, as the draws
    [Math.floor(Math.random() * gridSize)] do, every cell of the snake and
    the food lie on the grid in every state reached from the initial
    one. *)
Theorem reachable_on_grid :
  forall (JSON_parse : string -> option JValue)
         (JSON_stringify : JValue -> string)
         fuel rnd es st k,
    (forall i, inGrid (rnd i)) ->
    run JSON_parse JSON_stringify fuel rnd 0 initialState es = Some (st, k) ->
    Forall inGrid (snake st) /\ inGrid (food st).
Proof.
  intros JSON_parse JSON_stringify fuel rnd es st k Hrnd Hrun.
  pose proof (run_gameInv JSON_parse JSON_stringify fuel rnd es _ _ _ _
                Hrun initialState_gameInv)
    as (_ & _ & _ & _ & Hgrid & _).
  split; [exact Hgrid |].
  apply (run_food_inGrid JSON_parse JSON_stringify fuel rnd es Hrnd _ _ _ _
           Hrun).
  unfold inGrid, gridSize. simpl. lia.
Qed.

Lemma reachable_on_grid_witness :
  exists st,
    run toyParse toyStringify 1 (fun _ => mkCell 3 3) 0 initialState
      [KeyDown "ArrowUp"; Frame; Frame] = Some (st, 0%nat)
    /\ Forall inGrid (snake st) /\ inGrid (food st).
Proof.
  eexists. split; [reflexivity |].
  apply (reachable_on_grid toyParse toyStringify 1 (fun _ => mkCell 3 3)
           [KeyDown "ArrowUp"; Frame; Frame] _ 0%nat).
  - intros i. unfold inGrid, gridSize. simpl. lia.
  - reflexivity.
Defined.

(** X4.  In every state reached from the initial one the level lies
    between 1 and 10 and is never ahead of the score (at most
    [floor(score / 10) + 1]), and the speed is the speed of that level,
    between 70 and 165. *)
Theorem reachable_level_speed :
  forall (JSON_parse : string -> option JValue)
         (JSON_stringify : JValue -> string)
         fuel rnd es st k,
    run JSON_parse JSON_stringify fuel rnd 0 initialState es = Some (st, k) ->
    1 <= level st <= 10
    /\ level st <= score st / 10 + 1
    /\ speed st = calculateSpeed (level st)
    /\ 70 <= speed st <= 165.
Proof.
  intros JSON_parse JSON_stringify fuel rnd es st k Hrun.
  pose proof (run_gameInv JSON_parse JSON_stringify fuel rnd es _ _ _ _
                Hrun initialState_gameInv)
    as (_ & _ & _ & _ & _ & _ & Hlv & Hlag & Hsp).
  split; [exact Hlv |]. split; [exact Hlag |]. split; [exact Hsp |].
  rewrite Hsp, calculateSpeed_closed_form. split.
  - apply Z.div_le_lower_bound; lia.
  - assert ((3169 - 190 * level st) / 18 < 166)
      by (apply Z.div_lt_upper_bound; lia).
    lia.
Qed.

Lemma reachable_level_speed_witness :
  exists st,
    run toyParse toyStringify 1 (fun _ => mkCell 3 3) 0 initialState
      [KeyDown "ArrowUp"; Frame; ScoreEffect] = Some (st, 0%nat)
    /\ 1 <= level st <= 10
    /\ speed st = calculateSpeed (level st).
Proof.
  eexists. split; [reflexivity |].
  match goal with
  | |- 1 <= level ?s <= 10 /\ _ =>
      destruct (reachable_level_speed toyParse toyStringify 1
                  (fun _ => mkCell 3 3)
                  [KeyDown "ArrowUp"; Frame; ScoreEffect] s 0%nat eq_refl)
        as (H1 & _ & H3 & _)
  end.
  split; [exact H1 | exact H3].
Defined.

(** ** The level effect *)

Lemma updateLevel_level (st : GameState) :
  level (updateLevel st) = Z.min (score st / 10 + 1) 10.
Proof.
  unfold updateLevel.
  destruct (Z.eqb_spec (Z.min (score st / 10 + 1) 10) (level st)) as [E | E];
    simpl; [symmetry; exact E |].
  split_ifs; project; reflexivity.
Qed.

Lemma updateLevel_score (st : GameState) :
  score (updateLevel st) = score st.
Proof. unfold updateLevel. split_ifs; project; reflexivity. Qed.

Lemma updateLevel_speed (st : GameState) :
  speed st = calculateSpeed (level st) ->
  speed (updateLevel st) = calculateSpeed (level (updateLevel st)).
Proof.
  intros H. rewrite updateLevel_level. unfold updateLevel.
  destruct (Z.eqb_spec (Z.min (score st / 10 + 1) 10) (level st)) as [E | E];
    simpl; [rewrite E; exact H |].
  split_ifs; project; reflexivity.
Qed.

Lemma updateLevel_fixed (st : GameState) :
  level st = Z.min (score st / 10 + 1) 10 -> updateLevel st = st.
Proof.
  intros H. unfold updateLevel. rewrite <- H, Z.eqb_refl. reflexivity.
Qed.

(** X5.  After the level effect the level is
    [min(floor(score / 10) + 1, 10)]; running the effect again changes
    nothing, and it changes nothing at all when the level already has that
    value.  The effect keeps the speed equal to the speed of the level.
    When it changes a level of at least 1 (for a score of at least 0) it
    shows the level-up animation, and with sound enabled plays the
    level-up cue. *)
Theorem updateLevel_in_sync :
  forall st,
    level (updateLevel st) = Z.min (score st / 10 + 1) 10
    /\ updateLevel (updateLevel st) = updateLevel st
    /\ (level st = Z.min (score st / 10 + 1) 10 -> updateLevel st = st)
    /\ (speed st = calculateSpeed (level st) ->
        speed (updateLevel st) = calculateSpeed (level (updateLevel st)))
    /\ (0 <= score st -> 1 <= level st ->
        level st <> Z.min (score st / 10 + 1) 10 ->
        showLevelUpAnimation (updateLevel st) = true
        /\ played (updateLevel st)
           = if soundEnabled st then levelUpSound :: played st
             else played st).
Proof.
  intros st.
  split; [apply updateLevel_level |].
  split.
  { apply updateLevel_fixed.
    rewrite updateLevel_level, updateLevel_score. reflexivity. }
  split; [apply updateLevel_fixed |].
  split; [apply updateLevel_speed |].
  intros Hsc Hlv Hne. unfold updateLevel.
  destruct (Z.eqb_spec (Z.min (score st / 10 + 1) 10) (level st)) as [E | E];
    [congruence |].
  simpl negb. cbv iota.
  assert (Hguard : (level st >? 1) || (Z.min (score st / 10 + 1) 10 >? 1)
                   = true).
  { pose proof (Z.div_pos (score st) 10 Hsc ltac:(lia)).
    apply orb_true_iff.
    destruct (Z.gtb_spec (level st) 1); [left; reflexivity |].
    right. apply Z.gtb_lt. lia. }
  cbv zeta. rewrite Hguard. split; [reflexivity |].
  unfold playSound. simpl. destruct (soundEnabled st); reflexivity.
Qed.

Lemma updateLevel_in_sync_witness :
  level (updateLevel (setScore 25 initialState)) = 3
  /\ speed (updateLevel (setScore 25 initialState)) = 144
  /\ played (updateLevel (setScore 25 initialState)) = [levelUpSound].
Proof.
  destruct (updateLevel_in_sync (setScore 25 initialState))
    as (H1 & _ & _ & H4 & H5).
  split; [rewrite H1; reflexivity |].
  split; [rewrite (H4 eq_refl), H1; reflexivity |].
  destruct H5 as [_ H5].
  - simpl. lia.
  - simpl. lia.
  - simpl. discriminate.
  - rewrite H5. reflexivity.
Defined.

(** ** What a tick does to the snake, the score and the level *)

Lemma nth_error_removelast (l : list Cell) :
  forall i,
    nth_error (removelast l) i
    = if (S i <? List.length l)%nat then nth_error l i else None.
Proof.
  induction l as [| a l IH]; intros i.
  - destruct i; reflexivity.
  - destruct l as [| b l].
    + destruct i; reflexivity.
    + rewrite removelast_cons2. destruct i as [| i].
      * reflexivity.
      * simpl nth_error. rewrite IH. reflexivity.
Qed.

(** X6.  On a tick of the running game that hits no body cell, the new
    head comes first and every other segment takes the place of the
    segment in front of it; when the head does not land on the food the
    last cell is given up and the score, the food and the random source
    are untouched; when it does, no cell is given up, the score grows by
    exactly one and the new food is one of the cells drawn. *)
Theorem tick_moves_the_snake :
  forall fuel rnd k st h t st' k',
    phase st = Running ->
    snake st = h :: t ->
    ~ In (moveHead (direction st) h) t ->
    tick fuel rnd k st = Some (st', k') ->
    let newHead := moveHead (direction st) h in
    hd_error (snake st') = Some newHead
    /\ phase st' = Running
    /\ (newHead <> food st ->
        (forall i, (S i < List.length (snake st))%nat ->
                   nth_error (snake st') (S i) = nth_error (snake st) i)
        /\ List.length (snake st') = List.length (snake st)
        /\ score st' = score st /\ food st' = food st /\ k' = k)
    /\ (newHead = food st ->
        (forall i, nth_error (snake st') (S i) = nth_error (snake st) i)
        /\ score st' = score st + 1
        /\ exists n, food st' = rnd (k + n)%nat /\ k' = S (k + n)).
Proof.
  intros fuel rnd k st h t st' k' Hrun Hs Hfree Ht newHead.
  rewrite (tick_cases _ _ _ _ _ _ Hrun Hs) in Ht. fold newHead in Ht.
  apply onSnake_false_iff in Hfree. fold newHead in Hfree.
  rewrite Hfree in Ht.
  apply phase_Running in Hrun. destruct Hrun as (Hst & Hov & Hpa).
  destruct (sameCell newHead (food st)) eqn:E; cbn [negb] in Ht.
  - apply sameCell_true_iff in E.
    destruct (generateFood fuel st rnd k) as [[f kf] |] eqn:G;
      [| discriminate].
    injection Ht as <- <-.
    apply generateFood_returns in G. destruct G as (n & _ & Hf & Hk & _).
    split; [reflexivity |].
    split; [apply phase_Running; project; auto |].
    split; [intros Hne; contradiction |].
    intros _. split; [intros i; rewrite Hs; reflexivity |].
    split; [project; reflexivity |].
    exists n. project. auto.
  - assert (Hne : newHead <> food st).
    { intros Heq. apply sameCell_true_iff in Heq. congruence. }
    assert (Hmove : st' = setSnake (newHead :: removelast (snake st)) st
                    /\ k' = k).
    { rewrite Hs. injection Ht as <- <-. auto. }
    destruct Hmove as [-> ->].
    split; [reflexivity |].
    split; [apply phase_Running; simpl; auto |].
    split; [| intros Heq; contradiction].
    intros _. split.
    { intros i Hi.
      change (nth_error (removelast (snake st)) i = nth_error (snake st) i).
      rewrite nth_error_removelast.
      apply Nat.ltb_lt in Hi. rewrite Hi. reflexivity. }
    split; [| auto].
    change (S (List.length (removelast (snake st)))
            = List.length (snake st)).
    rewrite Hs, length_removelast_cons. reflexivity.
Qed.

Lemma tick_moves_the_snake_witness :
  exists st',
    tick 1 (fun _ => mkCell 3 3) 0 feedingState = Some (st', 1%nat)
    /\ snake st' = [mkCell 11 10; mkCell 10 10]
    /\ score st' = 1
    /\ food st' = mkCell 3 3.
Proof.
  eexists. split; [reflexivity |].
  match goal with
  | |- snake ?s = _ /\ _ =>
      destruct (tick_moves_the_snake 1 (fun _ => mkCell 3 3) 0 feedingState
                  (mkCell 10 10) [] s 1%nat eq_refl eq_refl)
        as (_ & _ & _ & H)
  end.
  - intros [].
  - reflexivity.
  - destruct (H eq_refl) as (_ & Hsc & _).
    split; [reflexivity |]. split; [exact Hsc | reflexivity].
Defined.

Lemma tick_score_le fuel rnd k st st' k' :
  tick fuel rnd k st = Some (st', k') -> score st <= score st'.
Proof.
  unfold tick, moveSnake.
  destruct (negb (gameStarted st) || gameOver st || paused st);
    [intros H; injection H as <- <-; lia |].
  destruct (snake st) as [| h t]; [intros H; injection H as <- <-; lia |].
  cbv zeta.
  match goal with |- context [if ?b then _ else _] => destruct b end;
    [intros H; injection H as <- <-; project; lia |].
  match goal with |- context [if ?b then _ else _] => destruct b end;
    [intros H; injection H as <- <-; simpl; lia |].
  destruct (generateFood fuel st rnd k) as [[f kf] |]; [| discriminate].
  intros H; injection H as <- <-. project. lia.
Qed.

(** X7.  A tick never lowers the score; so the level the level effect sets
    after the tick is at least the level it would have set before, and,
    the speed being the speed of the level, the interval between moves
    does not grow. *)
Theorem tick_never_slows :
  forall fuel rnd k st st' k',
    speed st = calculateSpeed (level st) ->
    tick fuel rnd k st = Some (st', k') ->
    score st <= score st'
    /\ level (updateLevel st) <= level (updateLevel st')
    /\ speed (updateLevel st') <= speed (updateLevel st).
Proof.
  intros fuel rnd k st st' k' Hsp Ht.
  pose proof (tick_score_le _ _ _ _ _ _ Ht) as Hle.
  pose proof (tick_keeps_store _ _ _ _ _ _ Ht) as (_ & _ & _ & _ & Hl & Hs).
  assert (Hsp' : speed st' = calculateSpeed (level st')) by congruence.
  assert (Hlv : level (updateLevel st) <= level (updateLevel st')).
  { rewrite !updateLevel_level.
    assert (score st / 10 <= score st' / 10) by (apply Z.div_le_mono; lia).
    lia. }
  split; [exact Hle |]. split; [exact Hlv |].
  rewrite (updateLevel_speed _ Hsp), (updateLevel_speed _ Hsp').
  rewrite !calculateSpeed_closed_form. apply Z.div_le_mono; lia.
Qed.

Lemma tick_never_slows_witness :
  exists st',
    tick 1 (fun _ => mkCell 3 3) 0 (setScore 9 feedingState)
    = Some (st', 1%nat)
    /\ level (updateLevel (setScore 9 feedingState)) = 1
    /\ level (updateLevel st') = 2
    /\ speed (updateLevel st') <= speed (updateLevel (setScore 9 feedingState)).
Proof.
  eexists. split; [reflexivity |].
  split; [reflexivity |]. split; [reflexivity |].
  match goal with
  | |- speed (updateLevel ?s) <= _ =>
      destruct (tick_never_slows 1 (fun _ => mkCell 3 3) 0
                  (setScore 9 feedingState) s 1%nat eq_refl eq_refl)
        as (_ & _ & H)
  end.
  exact H.
Defined.

(** ** Pausing, ending, and the keys that do nothing *)

Ltac bool_norm :=
  repeat (simpl;
          rewrite ?andb_false_r, ?andb_true_r, ?orb_false_r, ?orb_true_r).

Lemma togglePause_twice (st : GameState) :
  gameStarted st = true -> gameOver st = false ->
  togglePause (togglePause st) = st.
Proof.
  intros Hs Ho. unfold togglePause. rewrite Hs, Ho. simpl. rewrite Hs, Ho.
  simpl. rewrite negb_involutive.
  destruct st. reflexivity.
Qed.

Section Pausing.

Variable JSON_parse : string -> option JValue.
Variable JSON_stringify : JValue -> string.

Lemma step_paused_ignored fuel rnd k st e :
  phase st = Paused ->
  ignoredWhilePaused e = true ->
  step JSON_parse JSON_stringify fuel rnd k st e = Some (st, k).
Proof.
  intros Hp He. pose proof (phase_flags st) as Hf. rewrite Hp in Hf.
  destruct Hf as (Ho & Hs & Hpa).
  destruct e; try discriminate; simpl.
  - apply tick_not_Running. rewrite Hp. discriminate.
  - simpl in He. apply negb_true_iff in He.
    unfold handleKeyPress. rewrite Ho, Hs, Hpa, He. bool_norm. reflexivity.
  - unfold handleDirectionChange. rewrite Ho, Hs, Hpa. reflexivity.
  - unfold endGame. rewrite Ho, Hs, Hpa. reflexivity.
Qed.

Lemma run_paused_ignored fuel rnd es rest :
  forall k st,
    phase st = Paused ->
    forallb ignoredWhilePaused es = true ->
    run JSON_parse JSON_stringify fuel rnd k st (es ++ rest)
    = run JSON_parse JSON_stringify fuel rnd k st rest.
Proof.
  induction es as [| e es IH]; intros k st Hp Hes.
  - reflexivity.
  - simpl in Hes. apply andb_true_iff in Hes. destruct Hes as [He Hes].
    simpl. rewrite (step_paused_ignored fuel rnd k st e Hp He).
    apply IH; assumption.
Qed.

End Pausing.

(** X8.  Pausing a running game, then any number of frames, arrow keys and
    arrow buttons, other keys except P, and presses of End Game, then
    resuming, gives back exactly the state in which the game was paused:
    nothing is queued or lost, and no random draw is consumed. *)
Theorem pause_resume_round_trip :
  forall (JSON_parse : string -> option JValue)
         (JSON_stringify : JValue -> string)
         fuel rnd k st es,
    phase st = Running ->
    forallb ignoredWhilePaused es = true ->
    run JSON_parse JSON_stringify fuel rnd k st
      (PauseButton :: es ++ [PauseButton])
    = Some (st, k).
Proof.
  intros JSON_parse JSON_stringify fuel rnd k st es Hrun Hes.
  apply phase_Running in Hrun. destruct Hrun as (Hs & Ho & Hpa).
  assert (Hp : phase (togglePause st) = Paused).
  { unfold togglePause, phase. rewrite Hs, Ho, Hpa. simpl.
    rewrite Hs, Ho. reflexivity. }
  change (run JSON_parse JSON_stringify fuel rnd k (togglePause st)
            (es ++ [PauseButton]) = Some (st, k)).
  rewrite (run_paused_ignored JSON_parse JSON_stringify fuel rnd es
             [PauseButton] k _ Hp Hes).
  simpl. rewrite (togglePause_twice st Hs Ho). reflexivity.
Qed.

Lemma pause_resume_round_trip_witness :
  run toyParse toyStringify 0 (fun _ => mkCell 0 0) 0 feedingState
    [PauseButton; Frame; KeyDown "ArrowUp"; ArrowButton DOWN; Frame;
     EndGameButton; KeyDown "x"; PauseButton]
  = Some (feedingState, 0%nat).
Proof.
  apply (pause_resume_round_trip toyParse toyStringify 0
           (fun _ => mkCell 0 0) 0 feedingState
           [Frame; KeyDown "ArrowUp"; ArrowButton DOWN; Frame;
            EndGameButton; KeyDown "x"]).
  - reflexivity.
  - reflexivity.
Defined.

(** X9.  The P key, in either case, does in every state exactly what the
    Pause button does: it flips [paused] when the game is started and not
    over, and nothing otherwise. *)
Theorem pause_key_is_pause_button :
  forall st,
    handleKeyPress "p" st = togglePause st
    /\ handleKeyPress "P" st = togglePause st
    /\ (phase st = NotStarted \/ phase st = GameOver -> togglePause st = st)
    /\ (phase st = Running -> phase (togglePause st) = Paused)
    /\ (phase st = Paused -> phase (togglePause st) = Running).
Proof.
  intros st.
  split; [unfold handleKeyPress, togglePause; bool_norm; reflexivity |].
  split; [unfold handleKeyPress, togglePause; bool_norm; reflexivity |].
  pose proof (phase_flags st) as Hf.
  split; [| split].
  - intros [Hp | Hp]; rewrite Hp in Hf; unfold togglePause.
    + destruct Hf as [Ho Hs]. rewrite Hs. reflexivity.
    + rewrite Hf. bool_norm. reflexivity.
  - intros Hp. rewrite Hp in Hf. destruct Hf as (Ho & Hs & Hpa).
    unfold togglePause, phase. rewrite Ho, Hs, Hpa. simpl.
    rewrite Ho, Hs. reflexivity.
  - intros Hp. rewrite Hp in Hf. destruct Hf as (Ho & Hs & Hpa).
    unfold togglePause, phase. rewrite Ho, Hs, Hpa. simpl.
    rewrite Ho, Hs. reflexivity.
Qed.

Lemma pause_key_is_pause_button_witness :
  phase (handleKeyPress "p" feedingState) = Paused
  /\ phase (handleKeyPress "P" (handleKeyPress "p" feedingState)) = Running
  /\ handleKeyPress "p" initialState = initialState.
Proof.
  destruct (pause_key_is_pause_button feedingState) as (H1 & _ & _ & H4 & _).
  destruct (pause_key_is_pause_button (togglePause feedingState))
    as (_ & H2 & _ & _ & H5).
  destruct (pause_key_is_pause_button initialState) as (H6 & _ & H3 & _).
  split; [rewrite H1; apply H4; reflexivity |].
  split; [rewrite H1, H2; apply H5; reflexivity |].
  rewrite H6. apply H3. left. reflexivity.
Defined.

(** X10.  The X key, in either case, ends a running game like the End Game
    button but without the game-over cue: the button's result is the
    key's result with that cue played.  Outside a running game both do
    nothing.  Either way the snake and the score stay as they were. *)
Theorem end_key_is_silent_end_button :
  forall st,
    handleKeyPress "X" st = handleKeyPress "x" st
    /\ played (handleKeyPress "x" st) = played st
    /\ (phase st = Running ->
        handleKeyPress "x" st = setShowNameInput true (setGameOver true st)
        /\ endGame st = playSound gameOverSound (handleKeyPress "x" st)
        /\ phase (endGame st) = GameOver
        /\ snake (endGame st) = snake st
        /\ score (endGame st) = score st)
    /\ (phase st <> Running ->
        handleKeyPress "x" st = st /\ endGame st = st).
Proof.
  intros st. pose proof (phase_flags st) as Hf.
  unfold handleKeyPress, endGame, phase in *.
  destruct (gameStarted st) eqn:Hs, (gameOver st) eqn:Ho,
    (paused st) eqn:Hp; bool_norm;
    (split; [reflexivity |]); (split; [reflexivity |]);
    (split; [intros H; try discriminate
            | intros H; try (exfalso; apply H; reflexivity)]);
    try (split; reflexivity).
  split; [reflexivity |]. split; [reflexivity |].
  unfold phase. project. repeat split.
Qed.

Lemma arrow_tests_false (key : string) :
  isArrowKey key = false ->
  (key =? "ArrowUp")%string = false
  /\ (key =? "ArrowDown")%string = false
  /\ (key =? "ArrowLeft")%string = false
  /\ (key =? "ArrowRight")%string = false.
Proof.
  unfold isArrowKey. simpl. intros H.
  repeat (apply orb_false_iff in H; destruct H as [? H]).
  auto.
Qed.

(** X11.  A key that is neither an arrow nor P nor X changes nothing in any
    state; before the game has started every key but the arrows changes
    nothing (only an arrow starts the game); once the game is over no key
    changes anything. *)
Theorem idle_keys :
  forall key st,
    (isArrowKey key = false ->
     (key =? "p")%string = false -> (key =? "P")%string = false ->
     (key =? "x")%string = false -> (key =? "X")%string = false ->
     handleKeyPress key st = st)
    /\ (phase st = NotStarted -> isArrowKey key = false ->
        handleKeyPress key st = st)
    /\ (phase st = GameOver -> handleKeyPress key st = st).
Proof.
  intros key st. pose proof (phase_flags st) as Hf.
  split; [| split].
  - intros Ha Hp HP Hx HX.
    destruct (arrow_tests_false key Ha) as (H1 & H2 & H3 & H4).
    unfold handleKeyPress. rewrite Ha, Hp, HP, Hx, HX, H1, H2, H3, H4.
    bool_norm. split_ifs; reflexivity.
  - intros Hph Ha. rewrite Hph in Hf. destruct Hf as (Ho & Hs).
    unfold handleKeyPress. rewrite Ha, Ho, Hs. bool_norm.
    split_ifs; reflexivity.
  - intros Hph. rewrite Hph in Hf.
    unfold handleKeyPress. rewrite Hf. bool_norm. split_ifs; reflexivity.
Qed.

Lemma idle_keys_witness :
  handleKeyPress "q" feedingState = feedingState
  /\ handleKeyPress "x" initialState = initialState
  /\ handleKeyPress "ArrowUp" (endGame feedingState) = endGame feedingState.
Proof.
  destruct (idle_keys "q" feedingState) as (H1 & _ & _).
  destruct (idle_keys "x" initialState) as (_ & H2 & _).
  destruct (idle_keys "ArrowUp" (endGame feedingState)) as (_ & _ & H3).
  split; [apply H1; reflexivity |].
  split; [apply H2; reflexivity | apply H3; reflexivity].
Defined.

Lemma end_key_is_silent_end_button_witness :
  endGame feedingState
  = playSound gameOverSound (handleKeyPress "x" feedingState)
  /\ played (endGame feedingState) = [gameOverSound]
  /\ played (handleKeyPress "x" feedingState) = []
  /\ endGame initialState = initialState.
Proof.
  destruct (end_key_is_silent_end_button feedingState) as (_ & H2 & H3 & _).
  destruct (end_key_is_silent_end_button initialState) as (_ & _ & _ & H4).
  destruct (H3 eq_refl) as (_ & Hb & _).
  split; [exact Hb |]. split; [reflexivity |]. split; [exact H2 |].
  apply H4. discriminate.
Defined.

(** ** Direction changes *)

Ltac split_ifs_eqn :=
  repeat match goal with
         | |- context [if ?b then _ else _] => destruct b eqn:?
         end.

Lemma handleDirectionChange_direction d st :
  (direction (handleDirectionChange d st) = direction st
   \/ (direction (handleDirectionChange d st) = d
       /\ d <> opposite (direction st)
       /\ gameOver st = false /\ paused st = false))
  /\ snake (handleDirectionChange d st) = snake st.
Proof.
  unfold handleDirectionChange.
  destruct (gameOver st) eqn:Ho, (paused st) eqn:Hp,
    (gameStarted st) eqn:Hs, (direction st) eqn:Hd, d;
    bool_norm; project; rewrite ?Hd;
    (split; [| reflexivity]);
    try (left; reflexivity);
    right; repeat split; discriminate.
Qed.

Lemma handleKeyPress_direction key st :
  direction (handleKeyPress key st) = direction st
  \/ (direction (handleKeyPress key st) <> opposite (direction st)
      /\ gameStarted st = true /\ gameOver st = false /\ paused st = false).
Proof.
  unfold handleKeyPress.
  destruct (gameOver st) eqn:Ho, (paused st) eqn:Hp,
    (gameStarted st) eqn:Hs;
    bool_norm; split_ifs_eqn; project; rewrite ?Ho, ?Hp, ?Hs;
    try (left; reflexivity);
    right; (split; [| auto]);
    destruct (direction st); simpl in *; discriminate.
Qed.

(** X12.  No event but Play Again sets the direction to the opposite of the
    direction it finds, and an event changes the direction only while the
    game is neither over nor paused. *)
Theorem no_event_reverses :
  forall (JSON_parse : string -> option JValue)
         (JSON_stringify : JValue -> string)
         fuel rnd k st e st' k',
    isReset e = false ->
    step JSON_parse JSON_stringify fuel rnd k st e = Some (st', k') ->
    direction st' <> opposite (direction st)
    /\ (direction st' <> direction st ->
        gameOver st = false /\ paused st = false).
Proof.
  intros JSON_parse JSON_stringify fuel rnd k st e st' k' He Hstep.
  assert (Hself : direction st <> opposite (direction st))
    by (destruct (direction st); discriminate).
  assert (Hsame : direction st' = direction st ->
                  direction st' <> opposite (direction st)
                  /\ (direction st' <> direction st ->
                      gameOver st = false /\ paused st = false)).
  { intros E. rewrite E. split; [exact Hself | intros H; contradiction]. }
  destruct e; try discriminate; simpl in Hstep.
  - injection Hstep as <- <-. apply Hsame.
    apply (loadHighScores_keeps_game JSON_parse st).
  - apply Hsame. apply tick_keeps_store in Hstep. apply Hstep.
  - injection Hstep as <- <-. apply Hsame.
    unfold updateLevel. split_ifs; project; reflexivity.
  - injection Hstep as <- <-.
    destruct (handleKeyPress_direction key st) as [E | (Hn & _ & Ho & Hp)];
      [apply Hsame; exact E | auto].
  - injection Hstep as <- <-.
    destruct (handleDirectionChange_direction d st)
      as [[E | (E & Hn & Ho & Hp)] _];
      [apply Hsame; exact E |].
    rewrite E. auto.
  - injection Hstep as <- <-. apply Hsame.
    unfold togglePause. split_ifs; project; reflexivity.
  - injection Hstep as <- <-. apply Hsame.
    unfold endGame. split_ifs; project; reflexivity.
  - injection Hstep as <- <-. apply Hsame. reflexivity.
  - injection Hstep as <- <-. apply Hsame. reflexivity.
  - injection Hstep as <- <-. apply Hsame. reflexivity.
Qed.

Lemma no_event_reverses_witness :
  direction (handleDirectionChange LEFT feedingState) <> LEFT
  /\ direction (handleDirectionChange UP feedingState) = UP.
Proof.
  destruct (no_event_reverses toyParse toyStringify 0 (fun _ => mkCell 0 0)
              0 feedingState (ArrowButton LEFT)
              (handleDirectionChange LEFT feedingState) 0%nat
              eq_refl eq_refl)
    as (H & _).
  split; [exact H | reflexivity].
Defined.

(** ** Sound *)

Lemma playSound_off c s : soundEnabled s = false -> playSound c s = s.
Proof. intros H. unfold playSound. rewrite H. reflexivity. Qed.

Section Silence.

Variable JSON_parse : string -> option JValue.
Variable JSON_stringify : JValue -> string.

Lemma step_silent fuel rnd k st e st' k' :
  soundEnabled st = false ->
  e <> SoundButton ->
  step JSON_parse JSON_stringify fuel rnd k st e = Some (st', k') ->
  soundEnabled st' = false /\ played st' = played st.
Proof.
  intros Hoff He Hstep. destruct e; try congruence; simpl in Hstep.
  - injection Hstep as <- <-.
    destruct (loadHighScores_keeps_game JSON_parse st)
      as (_ & _ & _ & _ & Hp & Hs).
    rewrite Hp, Hs. auto.
  - unfold tick, moveSnake in Hstep.
    destruct (negb (gameStarted st) || gameOver st || paused st);
      [injection Hstep as <- <-; auto |].
    destruct (snake st) as [| h t]; [injection Hstep as <- <-; auto |].
    cbv zeta in Hstep.
    match type of Hstep with context [if ?b then _ else _] =>
      destruct b end.
    { injection Hstep as <- <-. rewrite playSound_off by exact Hoff. auto. }
    match type of Hstep with context [if ?b then _ else _] =>
      destruct b end;
      [injection Hstep as <- <-; auto |].
    destruct (generateFood fuel st rnd k) as [[f kf] |]; [| discriminate].
    injection Hstep as <- <-. rewrite playSound_off by exact Hoff. auto.
  - injection Hstep as <- <-. unfold updateLevel.
    split_ifs; try rewrite playSound_off by exact Hoff; auto.
  - injection Hstep as <- <-. unfold handleKeyPress.
    split_ifs; try rewrite playSound_off by exact Hoff; auto.
  - injection Hstep as <- <-. unfold handleDirectionChange.
    split_ifs; try rewrite playSound_off by exact Hoff; auto.
  - injection Hstep as <- <-. unfold togglePause. split_ifs; auto.
  - injection Hstep as <- <-. unfold endGame.
    split_ifs; try rewrite playSound_off by exact Hoff; auto.
  - injection Hstep as <- <-. auto.
  - injection Hstep as <- <-. auto.
  - unfold resetGame in Hstep.
    destruct (generateFood fuel st rnd k) as [[f kf] |]; [| discriminate].
    injection Hstep as <- <-. auto.
Qed.

Lemma run_silent fuel rnd es :
  forall k st st' k',
    soundEnabled st = false ->
    ~ In SoundButton es ->
    run JSON_parse JSON_stringify fuel rnd k st es = Some (st', k') ->
    soundEnabled st' = false /\ played st' = played st.
Proof.
  induction es as [| e es IH]; intros k st st' k' Hoff Hno Hrun.
  - injection Hrun as <- <-. auto.
  - simpl in Hrun.
    destruct (step JSON_parse JSON_stringify fuel rnd k st e)
      as [[s1 k1] |] eqn:Hstep; [| discriminate].
    assert (He : e <> SoundButton) by (intros ->; apply Hno; left; reflexivity).
    destruct (step_silent fuel rnd k st e s1 k1 Hoff He Hstep) as [H1 H2].
    destruct (IH k1 s1 st' k' H1) as [H3 H4];
      [intros Hin; apply Hno; right; exact Hin | exact Hrun |].
    split; [exact H3 | congruence].
Qed.

End Silence.

(** X14.  With sound switched off no cue is played: whatever events follow,
    as long as the Sound button is not among them, sound stays off and the
    sequence of cues played stays as it was. *)
Theorem sound_off_is_silent :
  forall (JSON_parse : string -> option JValue)
         (JSON_stringify : JValue -> string)
         fuel rnd k st es st' k',
    soundEnabled st = false ->
    ~ In SoundButton es ->
    run JSON_parse JSON_stringify fuel rnd k st es = Some (st', k') ->
    soundEnabled st' = false /\ played st' = played st.
Proof.
  intros JSON_parse JSON_stringify fuel rnd k st es st' k'.
  apply run_silent.
Qed.

Lemma sound_off_is_silent_witness :
  exists st',
    run toyParse toyStringify 1 (fun _ => mkCell 3 3) 0 initialState
      [SoundButton; KeyDown "ArrowRight"; Frame; ScoreEffect;
       EndGameButton]
    = Some (st', 0%nat)
    /\ played st' = [].
Proof.
  eexists. split; [reflexivity |].
  match goal with
  | |- played ?s = _ =>
      destruct (sound_off_is_silent toyParse toyStringify 1
                  (fun _ => mkCell 3 3) 0
                  (setSoundEnabled false initialState)
                  [KeyDown "ArrowRight"; Frame; ScoreEffect; EndGameButton]
                  s 0%nat eq_refl)
        as (_ & H)
  end.
  - simpl. intros [H | [H | [H | [H | []]]]]; discriminate.
  - reflexivity.
  - exact H.
Defined.

(** ** Play Again *)

(** X15.  Play Again puts every field of the game back to its initial
    value (one-cell snake at (10,10), heading right, score 0, level 1,
    initial speed, not started, not paused, empty name) and keeps the high
    scores, the store, the sound setting and the cues played.  The level
    effect that follows changes nothing.  The new food is a drawn cell
    that is off the snake of the finished game when that snake had fewer
    than gridSize * gridSize - 1 cells, and Play Again completes as soon
    as a draw ahead is accepted. *)
Theorem resetGame_restores :
  forall fuel rnd k st,
    (forall st' k',
        resetGame fuel rnd k st = Some (st', k') ->
        st' = mkState (snake initialState) (food st')
                (direction initialState) (gameOver initialState)
                (score initialState) (highScores st)
                (gameStarted initialState) (speed initialState)
                (paused initialState) (level initialState)
                (playerName initialState) (showNameInput initialState)
                (showLevelUpAnimation st) (soundEnabled st) (storage st)
                (played st)
        /\ phase st' = NotStarted
        /\ updateLevel st' = st'
        /\ (exists n, food st' = rnd (k + n)%nat /\ k' = S (k + n))
        /\ (Z.of_nat (List.length (snake st)) < gridSize * gridSize - 1 ->
            ~ In (food st') (snake st)))
    /\ (forall n, retried st (rnd (k + n)%nat) = false ->
        exists st' k', forall fuel', (n < fuel')%nat ->
          resetGame fuel' rnd k st = Some (st', k')).
Proof.
  intros fuel rnd k st. split.
  - intros st' k' H. unfold resetGame in H.
    destruct (generateFood fuel st rnd k) as [[f kf] |] eqn:G;
      [| discriminate].
    injection H as <- <-.
    apply generateFood_returns in G.
    destruct G as (n & _ & Hf & Hk & Hr & _).
    split; [reflexivity |]. split; [reflexivity |].
    split; [reflexivity |].
    split; [exists n; simpl; auto |].
    intros Hlen. simpl. rewrite (retried_short_snake _ _ Hlen) in Hr.
    apply onSnake_false_iff. exact Hr.
  - intros n Hacc.
    destruct (generateFood_terminates st rnd n k Hacc) as (c & k' & Hc).
    eexists. exists k'. intros fuel' Hf. unfold resetGame.
    rewrite (Hc fuel' Hf). reflexivity.
Qed.

Lemma resetGame_restores_witness :
  exists st',
    resetGame 1 (fun _ => mkCell 3 3) 0 (endGame curledState)
    = Some (st', 1%nat)
    /\ snake st' = [mkCell 10 10]
    /\ score st' = 0
    /\ ~ In (food st') (snake curledState).
Proof.
  eexists. split; [reflexivity |].
  match goal with
  | |- snake ?s = _ /\ _ =>
      destruct (resetGame_restores 1 (fun _ => mkCell 3 3) 0
                  (endGame curledState)) as (H & _);
      destruct (H s 1%nat eq_refl) as (_ & _ & _ & _ & H5)
  end.
  split; [reflexivity |]. split; [reflexivity |].
  apply H5. vm_compute. reflexivity.
Defined.

(** The food of the new game is tested against the old snake only: it may
    lie under the new one-cell snake. *)
Example resetGame_food_under_snake :
  exists st',
    resetGame 1 (fun _ => mkCell 10 10) 0 (endGame curledState)
    = Some (st', 1%nat)
    /\ snake st' = [food st'].
Proof. eexists. split; reflexivity. Qed.

(** ** The score store *)

Lemma saveHighScore_valid (JSON_stringify : JValue -> string) st :
  Forall isValid (highScores st) ->
  Forall isValid (highScores (saveHighScore JSON_stringify st)).
Proof.
  intros Hhs.
  set (entry := mkEntry (orElse (trim (playerName st)) "Anonymous")
                  (score st)).
  set (ranked := sort byScoreDesc (highScores st ++ [entry])).
  change (Forall isValid (firstn 5 ranked)).
  assert (Hall : Forall isValid ranked).
  { apply (sort_ok _ byScoreDesc). apply Forall_app.
    split; [exact Hhs |]. constructor; [apply mkEntry_valid | constructor]. }
  rewrite Forall_forall in *. intros v Hv. apply Hall.
  rewrite <- (firstn_skipn 5 ranked). apply in_or_app. left. exact Hv.
Qed.

Lemma setHighScores_same (st : GameState) :
  setHighScores (highScores st) st = st.
Proof. destruct st. reflexivity. Qed.

(** X16.  What Save Score writes, the load effect accepts: when the codec
    reads back the document it has written, loading after a save gives
    the saved state again, the list as saved and the store entry kept. *)
Theorem save_then_load :
  forall (JSON_parse : string -> option JValue)
         (JSON_stringify : JValue -> string) st,
    Forall isValid (highScores st) ->
    let saved := saveHighScore JSON_stringify st in
    JSON_stringify (JArr (highScores saved)) <> EmptyString ->
    JSON_parse (JSON_stringify (JArr (highScores saved)))
    = Some (JArr (highScores saved)) ->
    loadHighScores JSON_parse saved = saved.
Proof.
  intros JSON_parse JSON_stringify st Hvalid saved Hne Hparse.
  assert (Hsv : Forall isValid (highScores saved))
    by (apply saveHighScore_valid; exact Hvalid).
  assert (Hst : storage saved
                = Some (JSON_stringify (JArr (highScores saved))))
    by reflexivity.
  assert (Hok : validHighScores (JArr (highScores saved)) = true).
  { simpl. apply forallb_forall. rewrite Forall_forall in Hsv. exact Hsv. }
  unfold loadHighScores, loadBody. rewrite Hst.
  destruct (JSON_stringify (JArr (highScores saved))) as [| c s] eqn:E;
    [congruence |].
  rewrite Hparse, Hok. apply setHighScores_same.
Qed.

Lemma save_then_load_witness :
  loadHighScores toyParse (saveHighScore toyStringify bobState)
  = saveHighScore toyStringify bobState
  /\ highScores (saveHighScore toyStringify bobState)
     = [mkEntry "Ann" 7; mkEntry "Bob" 3].
Proof.
  split; [| reflexivity].
  apply (save_then_load toyParse toyStringify bobState).
  - repeat constructor.
  - discriminate.
  - reflexivity.
Defined.

Lemma StronglySorted_app_order (R : JValue -> JValue -> Prop)
    (l1 l2 : list JValue) :
  StronglySorted R (l1 ++ l2) ->
  forall a b, In a l1 -> In b l2 -> R a b.
Proof.
  induction l1 as [| c l1 IH]; intros H a b Ha Hb; [destruct Ha |].
  simpl in H. inversion H as [| ? ? Hs Hall]; subst.
  destruct Ha as [-> | Ha].
  - rewrite Forall_forall in Hall. apply Hall. apply in_or_app. right.
    exact Hb.
  - apply IH; assumption.
Qed.

(** X17.  The five entries Save Score keeps are the best: the kept and
    the dropped entries together are the old list and the new entry, every
    kept entry scores at least as much as every dropped one, and nothing
    is dropped while the old list has fewer than five entries. *)
Theorem saved_are_the_best :
  forall (JSON_stringify : JValue -> string) st,
    Forall isValid (highScores st) ->
    let entry :=
      mkEntry (orElse (trim (playerName st)) "Anonymous") (score st) in
    let kept := highScores (saveHighScore JSON_stringify st) in
    let dropped := skipn 5 (sort byScoreDesc (highScores st ++ [entry])) in
    Permutation (kept ++ dropped) (highScores st ++ [entry])
    /\ (forall a b, In a kept -> In b dropped -> scoreKey b <= scoreKey a)
    /\ List.length dropped = (List.length (highScores st) + 1 - 5)%nat
    /\ ((List.length (highScores st) < 5)%nat ->
        dropped = [] /\ In entry kept).
Proof.
  intros JSON_stringify st Hvalid entry kept dropped.
  set (ranked := sort byScoreDesc (highScores st ++ [entry])) in *.
  assert (Hk : kept = firstn 5 ranked) by reflexivity.
  assert (Hsplit : kept ++ dropped = ranked)
    by (rewrite Hk; apply firstn_skipn).
  assert (Hall : Forall isValid (highScores st ++ [entry])).
  { apply Forall_app. split; [exact Hvalid |].
    constructor; [apply mkEntry_valid | constructor]. }
  assert (Hperm : Permutation ranked (highScores st ++ [entry]))
    by apply sort_perm.
  assert (Hlen : List.length ranked = (List.length (highScores st) + 1)%nat).
  { unfold ranked. rewrite sort_length, List.length_app. reflexivity. }
  split; [rewrite Hsplit; exact Hperm |].
  split.
  { intros a b Ha Hb.
    pose proof (sort_descending _ _ _ _ byScoreDesc_key _ Hall) as Hd.
    fold ranked in Hd. rewrite <- Hsplit in Hd. unfold descending in Hd.
    exact (StronglySorted_app_order _ _ _ Hd a b Ha Hb). }
  split; [unfold dropped; rewrite length_skipn, Hlen; reflexivity |].
  intros Hfew.
  assert (Hd : dropped = []).
  { unfold dropped. apply skipn_all2. lia. }
  split; [exact Hd |].
  rewrite Hd, app_nil_r in Hsplit. rewrite Hsplit.
  apply (Permutation_in _ (Permutation_sym Hperm)).
  apply in_or_app. right. left. reflexivity.
Qed.

Lemma saved_are_the_best_witness :
  Permutation
    (highScores (saveHighScore toyStringify rankedState)
     ++ skipn 5 (sort byScoreDesc
                   (highScores rankedState ++ [mkEntry "Zed" 35])))
    (highScores rankedState ++ [mkEntry "Zed" 35])
  /\ List.length
       (skipn 5 (sort byScoreDesc
                   (highScores rankedState ++ [mkEntry "Zed" 35])))
     = 1%nat.
Proof.
  assert (Hvalid : Forall isValid (highScores rankedState))
    by (repeat constructor).
  destruct (saved_are_the_best toyStringify rankedState Hvalid)
    as (H1 & _ & H3 & _).
  split; [exact H1 | exact H3].
Defined.

(** ** Segment colours *)

Lemma rainbowColors_NoDup : NoDup rainbowColors.
Proof.
  unfold rainbowColors.
  repeat (constructor;
          [simpl; intros H;
           repeat (destruct H as [H | H]; [discriminate H |]); exact H |]).
  constructor.
Qed.

(** X18.  Every segment index has a colour, one of the seven of the
    rainbow; the colours repeat with period seven, and two different
    segments fewer than seven places apart never get the same colour. *)
Theorem getSegmentColor_cycle :
  forall index,
    (exists c, getSegmentColor index = Some c /\ In c rainbowColors)
    /\ getSegmentColor (index + 7) = getSegmentColor index
    /\ forall j, j <> index -> (j < index + 7)%nat -> (index < j + 7)%nat ->
                 getSegmentColor j <> getSegmentColor index.
Proof.
  intros index. unfold getSegmentColor.
  change (List.length rainbowColors) with 7%nat.
  assert (Hb : forall i, (i mod 7 < List.length rainbowColors)%nat).
  { intros i. change (List.length rainbowColors) with 7%nat.
    apply Nat.mod_upper_bound. discriminate. }
  split; [| split].
  - destruct (nth_error rainbowColors (index mod 7)) as [c |] eqn:E.
    + exists c. split; [reflexivity |]. eapply nth_error_In. exact E.
    + apply nth_error_None in E. specialize (Hb index). lia.
  - replace (index + 7)%nat with (index + 1 * 7)%nat by lia.
    rewrite Nat.Div0.mod_add. reflexivity.
  - intros j Hne Hlo Hhi Heq.
    apply (proj1 (NoDup_nth_error rainbowColors) rainbowColors_NoDup)
      in Heq; [| apply Hb].
    pose proof (Nat.div_mod_eq index 7). pose proof (Nat.div_mod_eq j 7).
    lia.
Qed.

Lemma getSegmentColor_cycle_witness :
  getSegmentColor 9 = Some "#FFFF00"%string
  /\ getSegmentColor 9 <> getSegmentColor 10
  /\ getSegmentColor 16 = getSegmentColor 9.
Proof.
  destruct (getSegmentColor_cycle 10) as (_ & _ & H3).
  destruct (getSegmentColor_cycle 9) as (_ & H2 & _).
  split; [reflexivity |].
  split; [apply H3; lia | exact H2].
Defined.

(** ** Swipes *)

Ltac swipe_tests :=
  repeat match goal with
         | |- context [?a >? ?b] => destruct (Z.gtb_spec a b)
         | |- context [?a <? ?b] => destruct (Z.ltb_spec a b)
         end.

(** X19.  A swipe does nothing while the game is over or paused, nothing
    when the finger has moved at most 30 pixels along both axes, and
    nothing when a touch of 300 ms or more has moved at most 40.
    Otherwise it is either ignored or handled as the arrow button of one
    direction, which is never the opposite of the current one and is the
    direction of the longer axis of the movement (the vertical one on a
    tie). *)
Theorem handleSwipe_cases :
  forall touch now st,
    let diffX := touchEndX touch - touchStartX touch in
    let diffY := touchEndY touch - touchStartY touch in
    (gameOver st = true \/ paused st = true -> handleSwipe touch now st = st)
    /\ (Z.abs diffX <= 30 -> Z.abs diffY <= 30 ->
        handleSwipe touch now st = st)
    /\ (300 <= now - touchStartTime touch ->
        Z.abs diffX <= 40 -> Z.abs diffY <= 40 ->
        handleSwipe touch now st = st)
    /\ (handleSwipe touch now st = st
        \/ exists d,
             handleSwipe touch now st = handleDirectionChange d st
             /\ d <> opposite (direction st)
             /\ match d with
                | RIGHT => Z.abs diffY < Z.abs diffX /\ 30 < diffX
                | LEFT => Z.abs diffY < Z.abs diffX /\ diffX < - 30
                | DOWN => Z.abs diffX <= Z.abs diffY /\ 30 < diffY
                | UP => Z.abs diffX <= Z.abs diffY /\ diffY < - 30
                end).
Proof.
  intros touch now st diffX diffY.
  split; [| split; [| split]].
  - intros H. unfold handleSwipe.
    destruct H as [H | H]; rewrite H; bool_norm; reflexivity.
  - intros Hx Hy. unfold handleSwipe. fold diffX diffY.
    destruct (gameOver st || paused st); [reflexivity |].
    cbv zeta. destruct (now - touchStartTime touch <? 300);
      swipe_tests; bool_norm; try reflexivity; lia.
  - intros Ht Hx Hy. unfold handleSwipe. fold diffX diffY.
    destruct (gameOver st || paused st); [reflexivity |].
    cbv zeta. destruct (Z.ltb_spec (now - touchStartTime touch) 300);
      [lia |].
    swipe_tests; bool_norm; try reflexivity; lia.
  - unfold handleSwipe. fold diffX diffY.
    destruct (gameOver st || paused st); [left; reflexivity |].
    cbv zeta. destruct (now - touchStartTime touch <? 300);
      swipe_tests; destruct (direction st) eqn:D; bool_norm;
      first [ left; reflexivity
            | right; eexists; split; [reflexivity |];
              split; [discriminate | lia] ].
Qed.

Lemma handleSwipe_cases_witness :
  handleSwipe (mkTouch 100 100 120 95 0) 50 feedingState = feedingState
  /\ handleSwipe (mkTouch 100 100 100 160 0) 50 (setPaused true feedingState)
     = setPaused true feedingState.
Proof.
  destruct (handleSwipe_cases (mkTouch 100 100 120 95 0) 50 feedingState)
    as (_ & H2 & _).
  destruct (handleSwipe_cases (mkTouch 100 100 100 160 0) 50
              (setPaused true feedingState)) as (H1 & _).
  split; [apply H2; simpl; lia | apply H1; right; reflexivity].
Defined.

(** X20.  A tap, a touch that ends where it started, changes nothing,
    whatever the touches before it have left behind; a move that stays
    within 30 pixels of the start along both axes is only recorded; a
    move beyond that is handled at once, exactly as lifting the finger at
    that point would be. *)
Theorem touch_tap_ignored :
  forall sx sy now touch st,
    let started := handleTouchStart sx sy now touch in
    (forall now', handleTouchEnd sx sy now' started st
                  = (mkTouch sx sy sx sy now, st))
    /\ (forall ex ey now',
           Z.abs (ex - sx) <= 30 -> Z.abs (ey - sy) <= 30 ->
           handleTouchMove ex ey now' started st
           = (mkTouch sx sy ex ey now, st))
    /\ (forall ex ey now',
           30 < Z.abs (ex - sx) \/ 30 < Z.abs (ey - sy) ->
           handleTouchMove ex ey now' started st
           = handleTouchEnd ex ey now' started st).
Proof.
  intros sx sy now touch st started.
  split; [| split].
  - intros now'. unfold handleTouchEnd, started, handleTouchStart.
    simpl. f_equal. unfold handleSwipe. simpl.
    rewrite !Z.sub_diag.
    destruct (gameOver st || paused st); [reflexivity |].
    destruct (now' - now <? 300); reflexivity.
  - intros ex ey now' Hx Hy.
    unfold handleTouchMove, started, handleTouchStart. simpl.
    destruct (Z.gtb_spec (Z.abs (ex - sx)) 30); [lia |].
    destruct (Z.gtb_spec (Z.abs (ey - sy)) 30); [lia |].
    reflexivity.
  - intros ex ey now' H.
    unfold handleTouchMove, handleTouchEnd, started, handleTouchStart.
    simpl.
    destruct (Z.gtb_spec (Z.abs (ex - sx)) 30); [reflexivity |].
    destruct (Z.gtb_spec (Z.abs (ey - sy)) 30); [reflexivity | lia].
Qed.

Lemma touch_tap_ignored_witness :
  handleTouchMove 215 300 40 (handleTouchStart 200 300 0 initialTouch)
    initialState
  = (mkTouch 200 300 215 300 0, initialState)
  /\ snd (handleTouchMove 260 300 40
            (handleTouchStart 200 300 0 initialTouch) initialState)
     = handleDirectionChange RIGHT initialState.
Proof.
  destruct (touch_tap_ignored 200 300 0 initialTouch initialState)
    as (_ & H2 & H3).
  split.
  - apply H2; simpl; lia.
  - rewrite H3 by (left; simpl; lia). reflexivity.
Defined.

(** ** The cadence of the game loop *)

(** X21.  Frames that come before [speed] milliseconds have passed since
    the last move leave the game, the random source and the time of the
    last move as they are, however many they are; a frame moves the snake
    only when at least [speed] milliseconds have passed, and then it makes
    one move and takes its own time as the time of the last move. *)
Theorem frames_before_due :
  forall fuel rnd k lastMoveTime st,
    (forall times,
        Forall (fun currentTime => currentTime - lastMoveTime < speed st)
          times ->
        frames fuel rnd k lastMoveTime st times = Some (st, k, lastMoveTime))
    /\ (forall currentTime st' k' last',
           gameLoop fuel rnd k currentTime lastMoveTime st
           = Some (st', k', last') ->
           (currentTime - lastMoveTime < speed st
            /\ st' = st /\ k' = k /\ last' = lastMoveTime)
           \/ (speed st <= currentTime - lastMoveTime
               /\ last' = currentTime
               /\ moveSnake fuel rnd k st = Some (st', k'))).
Proof.
  intros fuel rnd k lastMoveTime st. split.
  - intros times H. induction H as [| t times Ht Hrest IH].
    + reflexivity.
    + simpl. unfold gameLoop.
      destruct (Z.geb_spec (t - lastMoveTime) (speed st)); [lia |].
      exact IH.
  - intros currentTime st' k' last' H. unfold gameLoop in H.
    destruct (Z.geb_spec (currentTime - lastMoveTime) (speed st)).
    + right. destruct (moveSnake fuel rnd k st) as [[s1 k1] |];
        [| discriminate].
      injection H as <- <- <-. auto.
    + left. injection H as <- <- <-. auto.
Qed.

Lemma frames_before_due_witness :
  frames 0 (fun _ => mkCell 0 0) 0 1000 feedingState [1016; 1033; 1050; 1164]
  = Some (feedingState, 0%nat, 1000).
Proof.
  destruct (frames_before_due 0 (fun _ => mkCell 0 0) 0 1000 feedingState)
    as (H & _).
  apply H. repeat constructor.
Defined.

(** ** What the game-over overlay offers *)

(** X22.  However a running game ends (a collision, the End Game button
    or the X key) the overlay asks for the name first; Save Score replaces
    the name field by Play Again and leaves the game over with its snake
    and score; Play Again removes the overlay. *)
Theorem game_over_controls :
  forall (JSON_stringify : JValue -> string) fuel rnd k st,
    (phase st = Running ->
     gameOverControl (endGame st) = Some SaveScoreControl
     /\ gameOverControl (handleKeyPress "x" st) = Some SaveScoreControl
     /\ forall st' k',
          tick fuel rnd k st = Some (st', k') ->
          gameOver st' = true ->
          gameOverControl st' = Some SaveScoreControl)
    /\ (gameOver st = true ->
        gameOverControl (saveHighScore JSON_stringify st)
        = Some PlayAgainControl
        /\ snake (saveHighScore JSON_stringify st) = snake st
        /\ score (saveHighScore JSON_stringify st) = score st)
    /\ (forall st' k',
           resetGame fuel rnd k st = Some (st', k') ->
           gameOverControl st' = None).
Proof.
  intros JSON_stringify fuel rnd k st. split; [| split].
  - intros Hrun. pose proof Hrun as Hph.
    apply phase_Running in Hrun. destruct Hrun as (Hs & Ho & Hp).
    split; [| split].
    + unfold endGame, gameOverControl. rewrite Hs, Ho, Hp. project.
      reflexivity.
    + unfold handleKeyPress, gameOverControl. rewrite Hs, Ho, Hp.
      bool_norm. reflexivity.
    + intros st' k' Ht Hover. rewrite (tick_Running _ _ _ _ Hph) in Ht.
      unfold moveSnake in Ht.
      destruct (snake st) as [| h t];
        [injection Ht as <- <-; congruence |].
      cbv zeta in Ht.
      match type of Ht with context [if ?b then _ else _] =>
        destruct b end.
      { injection Ht as <- <-. unfold gameOverControl. project.
        reflexivity. }
      match type of Ht with context [if ?b then _ else _] =>
        destruct b end.
      { injection Ht as <- <-. simpl in Hover. congruence. }
      destruct (generateFood fuel st rnd k) as [[f kf] |]; [| discriminate].
      injection Ht as <- <-. revert Hover. project. congruence.
  - intros Hover. unfold gameOverControl. simpl. rewrite Hover.
    repeat split.
  - intros st' k' H. unfold resetGame in H.
    destruct (generateFood fuel st rnd k) as [[f kf] |]; [| discriminate].
    injection H as <- <-. reflexivity.
Qed.

Lemma game_over_controls_witness :
  gameOverControl (endGame feedingState) = Some SaveScoreControl
  /\ gameOverControl (saveHighScore toyStringify (endGame feedingState))
     = Some PlayAgainControl.
Proof.
  destruct (game_over_controls toyStringify 0 (fun _ => mkCell 0 0) 0
              feedingState) as (H1 & _).
  destruct (game_over_controls toyStringify 0 (fun _ => mkCell 0 0) 0
              (endGame feedingState)) as (_ & H2 & _).
  destruct (H1 eq_refl) as (Ha & _).
  destruct (H2 eq_refl) as (Hb & _).
  split; [exact Ha | exact Hb].
Defined.
